(** * quantum402 gateway: settlement protocol, nonce ledger, receipt archive

    A shallow embedding of [src/server/storage.js], [src/server/verify.js],
    the gateway signing helpers ([nowSec], [makeGatewayKeypair], [signGateway],
    [verifyGateway]) and the request handlers of [src/server/index.js].

    Conventions of the embedding.
    - JSON objects are records whose fields carry the types of the data
      model: text as [string], epoch seconds and ttl as [Z].  A field the
      handlers test for presence, or that the verifiers must survive when it
      is [undefined], is an [option].
    - A nonce is text, as [makeNonce] issues it, and [usedNonces] is a map
      keyed by text.  The JavaScript [Map] compares a key that is an array or
      an object by identity, so such a nonce, if a request carries one, is
      never found again by a later request; requests of that shape are
      outside the data model, and every statement about the ledger is a
      statement about text nonces.
    - The module-level [receipts] array and [usedNonces] map live in a
      [World] that every operation threads; a handler is a computation in a
      state-and-exception monad [M], [try { } catch { }] is [try_catch].
    - Everything the repository imports (tweetnacl, bs58, ethers, Buffer,
      the wall clock, the random source, JSON.parse) is a field of
      [Externals]; nothing is assumed about them except where a theorem says
      so.  The wall clock is an oracle: [Date_now E i] is what the [i]-th call
      of [Date.now()] returns, and the world counts the calls.
    - A handler runs to completion before the next request is served: the
      only [await] in [/api/settle] waits on verifiers that never suspend. *)

From Stdlib Require Import ZArith Ascii String List Lia.
From stdpp Require Import gmap strings list fin_maps pretty.

Local Open Scope string_scope.
Local Open Scope Z_scope.

(** ** Data model *)

Definition bytes := list Byte.byte.

Record Invoice := {
  inv_feature : string;
  inv_amount : string;
  inv_unit : string;
  inv_ttl : Z;
  inv_nonce : string;
  inv_merkleId : string;
  inv_ts : Z;
  inv_wallet : string
}.

Record WalletProof := {
  kind : option string;
  account : option string;
  signatureBase64 : option string;
  signatureHex : option string
}.

Record Receipt := {
  feature : string;
  amount : string;
  unit_ : string;
  ttl : Z;
  nonce : string;
  merkleId : string;
  payer : option string;
  gatewayPubkey : string;
  ts : Z;
  sig : option string
}.

Record KeyPair := { publicKey : bytes; secretKey : bytes }.

(** A thrown JavaScript value. *)
Inductive exn :=
| TypeError
| Error (msg : string).

Inductive result (A : Type) :=
| Ok (a : A)
| Throw (e : exn).
Arguments Ok {A} a.
Arguments Throw {A} e.

(** ** The imported libraries *)

Record Externals := {
  (* Date.now(): the reading of the i-th call, in milliseconds *)
  Date_now : nat -> Z;
  (* crypto.randomUUID() and crypto.randomBytes(32).toString('hex'), by draw *)
  crypto_randomUUID : nat -> string;
  crypto_randomBytes32_hex : nat -> string;
  (* Buffer *)
  Buffer_toString_base64 : bytes -> string;
  Buffer_from_base64 : option string -> result bytes;
  (* bs58 *)
  bs58_decode : option string -> result bytes;
  (* tweetnacl; sign.detached is called with the gateway's own secret key
     only, which a nacl key pair makes 64 bytes long, so it returns *)
  nacl_sign_keyPair : KeyPair;
  nacl_sign_keyPair_fromSeed : bytes -> KeyPair;
  nacl_sign_detached : bytes -> bytes -> bytes;
  nacl_sign_detached_verify : bytes -> bytes -> bytes -> result bool;
  (* ethers *)
  ethers_verifyMessage : string + bytes -> option string -> result string;
  ethers_getBytes : string -> result bytes;
  (* String.prototype.toLowerCase *)
  toLowerCase : string -> string;
  (* JSON.parse of the x402-receipt header *)
  JSON_parse : string -> result Receipt
}.

(** Calls into the signature libraries, in the order made. *)
Inductive Call :=
| Call_bs58_decode (a : option string)
| Call_nacl_verify (msg sg pk : bytes)
| Call_nacl_sign (msg : bytes)
| Call_ethers_verifyMessage (msg : string + bytes) (sg : option string)
| Call_ethers_getBytes (msg : string).

(** ** The world: storage.js state, clock and entropy positions, call log *)

Record World := {
  receipts : list Receipt;
  usedNonces : gmap string Z;
  clock_reads : nat;
  draws : nat;
  calls : list Call
}.

Definition set_receipts (rs : list Receipt) (w : World) : World :=
  {| receipts := rs; usedNonces := usedNonces w; clock_reads := clock_reads w;
     draws := draws w; calls := calls w |}.

Definition set_usedNonces (m : gmap string Z) (w : World) : World :=
  {| receipts := receipts w; usedNonces := m; clock_reads := clock_reads w;
     draws := draws w; calls := calls w |}.

Definition tick (w : World) : World :=
  {| receipts := receipts w; usedNonces := usedNonces w;
     clock_reads := S (clock_reads w); draws := draws w; calls := calls w |}.

Definition draw (w : World) : World :=
  {| receipts := receipts w; usedNonces := usedNonces w;
     clock_reads := clock_reads w; draws := S (draws w); calls := calls w |}.

Definition log (c : Call) (w : World) : World :=
  {| receipts := receipts w; usedNonces := usedNonces w;
     clock_reads := clock_reads w; draws := draws w; calls := (calls w ++ [c])%list |}.

(** ** The monad of handlers *)

Definition M (A : Type) : Type := World -> result A * World.

Definition ret {A} (a : A) : M A := fun w => (Ok a, w).

Definition throw {A} (e : exn) : M A := fun w => (Throw e, w).

Definition bind {A B} (m : M A) (k : A -> M B) : M B :=
  fun w => match m w with
           | (Ok a, w') => k a w'
           | (Throw e, w') => (Throw e, w')
           end.

(** [try { m } catch (e) { h e }]: what [m] did to the world stays done. *)
Definition try_catch {A} (m : M A) (h : exn -> M A) : M A :=
  fun w => match m w with
           | (Ok a, w') => (Ok a, w')
           | (Throw e, w') => h e w'
           end.

Definition gets {A} (f : World -> A) : M A := fun w => (Ok (f w), w).

Definition modify (f : World -> World) : M unit := fun w => (Ok tt, f w).

(** A library call: logged, then its value returned or its exception thrown. *)
Definition extern {A} (c : Call) (r : result A) : M A :=
  fun w => (r, log c w).

Definition lift {A} (r : result A) : M A := fun w => (r, w).

Notation "x <- m ;; k" := (bind m (fun x => k))
  (at level 100, m at next level, right associativity).
Notation "m ;;; k" := (bind m (fun _ => k))
  (at level 100, right associativity).

(** ** Requests and responses *)

Record InvoiceParams := {
  p_feature : option string;
  p_amount : option string;
  p_unit : option string;
  p_ttlSec : option Z;
  p_wallet : option string
}.

Record SettleBody := {
  invoice : option Invoice;
  walletProof : option WalletProof
}.

Record VerifyBody := { receipt : option Receipt }.

Inductive Body :=
| BHealth (t : Z)
| BGateway (pubkeyBase64 : string)
| BInvoice (inv : Invoice) (messageToSign gatewayPubkey_ : string)
| BError (error : string)
| BReceipt (r : Receipt)
| BItems (items : list Receipt)
| BVerified (replayProtected : bool)
| BData (text : string).

Record Response := { status : Z; body : Body }.

(** [res.json(b)] and [res.status(s).json(b)] *)
Definition json (b : Body) : Response := {| status := 200; body := b |}.
Definition status_json (s : Z) (b : Body) : Response := {| status := s; body := b |}.

Section Gateway.

Variable E : Externals.

(** ** storage.js *)

(** [Math.floor(Date.now() / 1000)] *)
Definition floor_now : M Z :=
  fun w => (Ok (Date_now E (clock_reads w) / 1000), tick w).

(** [receipts.unshift(r); if (receipts.length > 500) receipts.pop();] *)
Definition rememberReceipt (r : Receipt) : M unit :=
  modify (fun w =>
    let rs := r :: receipts w in
    set_receipts (if 500 <? Z.of_nat (length rs) then removelast rs else rs) w).

(** [usedNonces.set(nonce, expireAt)] *)
Definition markNonce (nonce : string) (expireAt : Z) : M unit :=
  modify (fun w => set_usedNonces (<[nonce := expireAt]> (usedNonces w)) w).

(** [const exp = usedNonces.get(nonce);
     return !!exp && exp >= Math.floor(Date.now() / 1000);]
    [&&] does not read the clock when [exp] is undefined or 0. *)
Definition seenNonce (nonce : string) : M bool :=
  exp <- gets (fun w => usedNonces w !! nonce) ;;
  match exp with
  | None => ret false
  | Some exp =>
      if exp =? 0 then ret false
      else now <- floor_now ;; ret (exp >=? now)
  end.

(** [for (const [k, exp] of usedNonces.entries())
       if (exp < now) usedNonces.delete(k);] *)
Definition cleanupNonces : M unit :=
  now <- floor_now ;;
  modify (fun w =>
    set_usedNonces (filter (fun kv => ¬ (kv.2 < now)) (usedNonces w)) w).

(** ** verify.js *)

(** [enc.encode(s)]: the UTF-8 bytes of a string. *)
Definition enc (s : string) : bytes := list_byte_of_string s.

(** [async function verifySolanaMessage({ message, signatureBase64, account })] *)
Definition verifySolanaMessage
    (message : string) (signatureBase64 account : option string) : M bool :=
  try_catch
    (pub <- extern (Call_bs58_decode account) (bs58_decode E account) ;;
     sg <- lift (Buffer_from_base64 E signatureBase64) ;;
     extern (Call_nacl_verify (enc message) sg pub)
            (nacl_sign_detached_verify E (enc message) sg pub))
    (fun _ => ret false).

(** [recovered.toLowerCase() === account.toLowerCase()]; the method call on
    an undefined [account] throws a TypeError. *)
Definition same_address (recovered : string) (account : option string) : M bool :=
  match account with
  | None => throw TypeError
  | Some a => ret (String.eqb (toLowerCase E recovered) (toLowerCase E a))
  end.

(** [async function verifyEvmMessage({ message, signatureHex, account })]:
    the first [try] returns [true] on a match and otherwise, or on any
    exception, falls through to the second. *)
Definition verifyEvmMessage
    (message : string) (signatureHex account : option string) : M bool :=
  returned <- try_catch
    (recovered1 <- extern (Call_ethers_verifyMessage (inl message) signatureHex)
                          (ethers_verifyMessage E (inl message) signatureHex) ;;
     same <- same_address recovered1 account ;;
     ret (if same then Some true else None))
    (fun _ => ret None) ;;
  match returned with
  | Some b => ret b
  | None =>
      try_catch
        (raw <- extern (Call_ethers_getBytes message) (ethers_getBytes E message) ;;
         recovered2 <- extern (Call_ethers_verifyMessage (inr raw) signatureHex)
                              (ethers_verifyMessage E (inr raw) signatureHex) ;;
         same_address recovered2 account)
        (fun _ => ret false)
  end.

(** ** The gateway's signing helpers *)

Definition nowSec : M Z := floor_now.

(** [new Uint8Array(Buffer.from(s, 'base64'))] *)
Definition fromB64 (s : option string) : result bytes := Buffer_from_base64 E s.

(** [Buffer.from(u8).toString('base64')] *)
Definition toB64 (u8 : bytes) : string := Buffer_toString_base64 E u8.

(** [makeGatewayKeypair(seedB64)]; an absent or empty seed is falsy. *)
Definition makeGatewayKeypair (seedB64 : option string) : result KeyPair :=
  match seedB64 with
  | None => Ok (nacl_sign_keyPair E)
  | Some s =>
      if String.eqb s "" then Ok (nacl_sign_keyPair E)
      else match fromB64 (Some s) with
           | Throw e => Throw e
           | Ok seed =>
               if negb (Z.of_nat (length seed) =? 32)
               then Throw (Error "GATEWAY_SEED_BASE64 must be 32 bytes (base64)")
               else Ok (nacl_sign_keyPair_fromSeed E seed)
           end
  end.

Definition signGateway (msgStr : string) (sk : bytes) : M string :=
  sg <- extern (Call_nacl_sign (enc msgStr)) (Ok (nacl_sign_detached E (enc msgStr) sk)) ;;
  ret (toB64 sg).

Definition verifyGateway (msgStr : string) (sigB64 : option string) (publicKeyU8 : bytes)
    : M bool :=
  sg <- lift (fromB64 sigB64) ;;
  extern (Call_nacl_verify (enc msgStr) sg publicKeyU8)
         (nacl_sign_detached_verify E (enc msgStr) sg publicKeyU8).

(** ** index.js *)

(** The key pair made at start-up, and its public key in base64. *)
Variable kp : KeyPair.

Definition gatewayPubB64 : string := Buffer_toString_base64 E (publicKey kp).

(** [Array.prototype.join] on strings. *)
Fixpoint join (sep : string) (l : list string) : string :=
  match l with
  | [] => ""
  | [x] => x
  | x :: rest => x +:+ sep +:+ join sep rest
  end.

(** [s.replace(/-/g, '')] *)
Fixpoint strip_dashes (s : string) : string :=
  match s with
  | EmptyString => EmptyString
  | String c rest =>
      if Ascii.eqb c "-"%char then strip_dashes rest else String c (strip_dashes rest)
  end.

Definition makeNonce : M string :=
  fun w => (Ok (strip_dashes (crypto_randomUUID E (draws w))), draw w).

Definition randHex32 : M string :=
  fun w => (Ok (crypto_randomBytes32_hex E (draws w)), draw w).

(** [(nowSec() - ts) <= ttl] *)
Definition isFresh (ts ttl : Z) : M bool :=
  now <- nowSec ;; ret (now - ts <=? ttl).

(** A number in a joined array is written in decimal. *)
Definition messageFromInvoice (inv : Invoice) : string :=
  join "|" [inv_feature inv; inv_amount inv; inv_unit inv; inv_nonce inv;
            inv_merkleId inv; pretty (inv_ts inv)].

Definition messageFromReceipt (rcpt : Receipt) : string :=
  join "|" [feature rcpt; amount rcpt; unit_ rcpt; nonce rcpt;
            merkleId rcpt; pretty (ts rcpt)].

Definition set_sig (sg : string) (r : Receipt) : Receipt :=
  {| feature := feature r; amount := amount r; unit_ := unit_ r; ttl := ttl r;
     nonce := nonce r; merkleId := merkleId r; payer := payer r;
     gatewayPubkey := gatewayPubkey r; ts := ts r; sig := Some sg |}.

(** [app.get('/health')] *)
Definition api_health : M Response :=
  t <- nowSec ;; ret (json (BHealth t)).

(** [app.get('/api/gateway')] *)
Definition api_gateway : M Response := ret (json (BGateway gatewayPubB64)).

(** [app.post('/api/invoice')] *)
Definition api_invoice (req_body : option InvoiceParams) : M Response :=
  let field {A} (f : InvoiceParams -> option A) (d : A) : A :=
    match req_body with
    | Some b => match f b with Some v => v | None => d end
    | None => d
    end in
  ts <- nowSec ;;
  nonce <- makeNonce ;;
  merkleId <- randHex32 ;;
  let invoice :=
    {| inv_feature := field p_feature "api.translate";
       inv_amount := field p_amount "0.01";
       inv_unit := field p_unit "SOL";
       inv_ttl := field p_ttlSec 90;
       inv_nonce := nonce;
       inv_merkleId := merkleId;
       inv_ts := ts;
       inv_wallet := field p_wallet "phantom" |} in
  ret (json (BInvoice invoice (messageFromInvoice invoice) gatewayPubB64)).

(** The dispatch on [walletProof.kind]; [verified] starts as [false]. *)
Definition verifyWalletProof (msg : string) (walletProof : WalletProof) : M bool :=
  match kind walletProof with
  | Some k =>
      if String.eqb k "solana" then
        verifySolanaMessage msg (signatureBase64 walletProof) (account walletProof)
      else if String.eqb k "evm" then
        verifyEvmMessage msg (signatureHex walletProof) (account walletProof)
      else ret false
  | None => ret false
  end.

(** The object literal [{ feature: invoice.feature, ..., ts: invoice.ts }] of
    [/api/settle], before [receipt.sig] is assigned. *)
Definition new_receipt (invoice : Invoice) (walletProof : WalletProof) : Receipt :=
  {| feature := inv_feature invoice;
     amount := inv_amount invoice;
     unit_ := inv_unit invoice;
     ttl := inv_ttl invoice;
     nonce := inv_nonce invoice;
     merkleId := inv_merkleId invoice;
     payer := account walletProof;
     gatewayPubkey := gatewayPubB64;
     ts := inv_ts invoice;
     sig := None |}.

(** [app.post('/api/settle')] *)
Definition api_settle (req_body : option SettleBody) : M Response :=
  try_catch
    (match req_body ≫= invoice, req_body ≫= walletProof with
     | Some invoice, Some walletProof =>
         fresh <- isFresh (inv_ts invoice) (inv_ttl invoice) ;;
         if negb fresh then ret (status_json 400 (BError "expired")) else
         seen <- seenNonce (inv_nonce invoice) ;;
         if seen then ret (status_json 409 (BError "replay")) else
         let msg := messageFromInvoice invoice in
         verified <- verifyWalletProof msg walletProof ;;
         if negb verified then ret (status_json 401 (BError "bad-wallet-proof")) else
         markNonce (inv_nonce invoice) (inv_ts invoice + inv_ttl invoice) ;;;
         cleanupNonces ;;;
         let receipt := new_receipt invoice walletProof in
         sg <- signGateway (messageFromReceipt receipt) (secretKey kp) ;;
         let receipt := set_sig sg receipt in
         rememberReceipt receipt ;;;
         ret (json (BReceipt receipt))
     | _, _ => ret (status_json 400 (BError "missing-body"))
     end)
    (fun _ => ret (status_json 500 (BError "server-error"))).

(** [app.get('/api/receipts')] *)
Definition api_receipts : M Response :=
  items <- gets receipts ;; ret (json (BItems items)).

(** [app.post('/api/verify')] *)
Definition api_verify (req_body : option VerifyBody) : M Response :=
  try_catch
    (match req_body ≫= receipt with
     | None => ret (status_json 400 (BError "missing-receipt"))
     | Some receipt =>
         fresh <- isFresh (ts receipt) (ttl receipt) ;;
         if negb fresh then ret (json (BError "expired")) else
         pk <- lift (Buffer_from_base64 E (Some (gatewayPubkey receipt))) ;;
         ok <- verifyGateway (messageFromReceipt receipt) (sig receipt) pk ;;
         if negb ok then ret (json (BError "bad-sig")) else
         replayProtected <- seenNonce (nonce receipt) ;;
         ret (json (BVerified replayProtected))
     end)
    (fun _ => ret (status_json 500 (BError "server-error"))).

(** [app.get('/api/translate')]; an absent or empty header is falsy. *)
Definition api_translate (hdr : option string) : M Response :=
  match hdr with
  | None => ret (status_json 402 (BError "missing-x402-receipt"))
  | Some h =>
      if String.eqb h "" then ret (status_json 402 (BError "missing-x402-receipt"))
      else
        try_catch
          (receipt <- lift (JSON_parse E h) ;;
           fresh <- isFresh (ts receipt) (ttl receipt) ;;
           if negb fresh then ret (status_json 402 (BError "expired")) else
           pk <- lift (Buffer_from_base64 E (Some (gatewayPubkey receipt))) ;;
           ok <- verifyGateway (messageFromReceipt receipt) (sig receipt) pk ;;
           if negb ok then ret (status_json 401 (BError "bad-sig")) else
           if negb (String.eqb (feature receipt) "api.translate")
           then ret (status_json 403 (BError "wrong-feature"))
           else ret (json (BData "Hello â†’ Halo")))
          (fun _ => ret (status_json 400 (BError "bad-receipt-json")))
  end.

(** One request to the gateway. *)
Inductive Request :=
| GetHealth
| GetGateway
| PostInvoice (req_body : option InvoiceParams)
| PostSettle (req_body : option SettleBody)
| GetReceipts
| PostVerify (req_body : option VerifyBody)
| GetTranslate (hdr : option string).

Definition handle (rq : Request) : M Response :=
  match rq with
  | GetHealth => api_health
  | GetGateway => api_gateway
  | PostInvoice b => api_invoice b
  | PostSettle b => api_settle b
  | GetReceipts => api_receipts
  | PostVerify b => api_verify b
  | GetTranslate h => api_translate h
  end.

(** The world after serving the requests one after the other. *)
Fixpoint serve (rqs : list Request) (w : World) : World :=
  match rqs with
  | [] => w
  | rq :: rest => serve rest (handle rq w).2
  end.

End Gateway.

(** ** Vocabulary of the statements *)

(** The second the next reading of the clock shows. *)
Definition now_at (E : Externals) (w : World) : Z :=
  Date_now E (clock_reads w) / 1000.

(** The clock never runs backwards, and shows a time after the epoch. *)
Definition clock_monotone (E : Externals) : Prop :=
  ∀ i j : nat, (i ≤ j)%nat → Date_now E i ≤ Date_now E j.

Definition clock_after_epoch (E : Externals) : Prop :=
  ∀ i : nat, 1000 ≤ Date_now E i.

(** The world with more library calls on its log. *)
Definition append_calls (cs : list Call) (w : World) : World :=
  {| receipts := receipts w; usedNonces := usedNonces w;
     clock_reads := clock_reads w; draws := draws w; calls := (calls w ++ cs)%list |}.

(** The archive after recording the receipts of a list, first to last. *)
Definition remember_all (rs : list Receipt) (w : World) : World :=
  fold_left (fun w r => (rememberReceipt r w).2) rs w.

(** The world at start-up: [const receipts = []; const usedNonces = new Map()]. *)
Definition initial : World :=
  {| receipts := []; usedNonces := ∅; clock_reads := 0; draws := 0; calls := [] |}.

(** What a computation answers and logs when run from the start-up world;
    the verifiers read nothing of the world, so this is what they answer and
    log anywhere (lemma [verifyWalletProof_run]). *)
Definition verdict (m : M bool) : bool :=
  match (m initial).1 with Ok b => b | Throw _ => false end.

Definition calls_of {A} (m : M A) : list Call := calls (m initial).2.

(** What [isFresh] and [seenNonce] answer in a world. *)
Definition fresh_at (E : Externals) (ts ttl : Z) (w : World) : bool :=
  now_at E w - ts <=? ttl.

Definition seen_at (E : Externals) (n : string) (w : World) : bool :=
  match (seenNonce E n w).1 with Ok b => b | Throw _ => false end.

(** A settle request with both parts present. *)
Definition settle_request (inv : Invoice) (p : WalletProof) : option SettleBody :=
  Some {| invoice := Some inv; walletProof := Some p |}.

(** The receipt [/api/settle] signs for an invoice and a proof. *)
Definition signed_receipt (E : Externals) (kp : KeyPair)
    (inv : Invoice) (p : WalletProof) : Receipt :=
  let r := new_receipt E kp inv p in
  set_sig (toB64 E (nacl_sign_detached E (enc (messageFromReceipt r)) (secretKey kp))) r.

(** The ordered checks of settle as the specification words them: both
    parts present, else missing-body; fresh, else expired; nonce not seen,
    else replay; proof authentic, else bad-wallet-proof; [None] is success.
    The status is the one the interface gives each error. *)
Definition ordered_checks (present fresh seen verified : bool) : option (Z * string) :=
  if negb present then Some (400, "missing-body")
  else if negb fresh then Some (400, "expired")
  else if seen then Some (409, "replay")
  else if negb verified then Some (401, "bad-wallet-proof")
  else None.

(** [w'] has the ledger of [w] and a clock read no fewer times. *)
Definition ledger_kept (w w' : World) : Prop :=
  usedNonces w' = usedNonces w ∧ (clock_reads w ≤ clock_reads w')%nat.

(** A computation that never writes the ledger. *)
Definition keeps_ledger {A} (m : M A) : Prop := ∀ w, ledger_kept w (m w).2.

(** The ledger holds nonce [n] with expiry [T] for as long as the clock has
    not passed [T]. *)
Definition holds_nonce (E : Externals) (n : string) (T : Z) (w : World) : Prop :=
  now_at E w ≤ T → usedNonces w !! n = Some T.

(** The world in which [/api/settle] has verified the proof. *)
Definition verified_in (E : Externals) (inv : Invoice) (p : WalletProof) (w : World)
    : World :=
  append_calls (calls_of (verifyWalletProof E (messageFromInvoice inv) p))
               (seenNonce E (inv_nonce inv) (tick w)).2.

(** A verify request for a receipt. *)
Definition verify_request (r : Receipt) : option VerifyBody :=
  Some {| receipt := Some r |}.

(** A receipt with its payer, or its gatewayPubkey, replaced. *)
Definition set_payer (x : option string) (r : Receipt) : Receipt :=
  {| feature := feature r; amount := amount r; unit_ := unit_ r; ttl := ttl r;
     nonce := nonce r; merkleId := merkleId r; payer := x;
     gatewayPubkey := gatewayPubkey r; ts := ts r; sig := sig r |}.

Definition set_gatewayPubkey (x : string) (r : Receipt) : Receipt :=
  {| feature := feature r; amount := amount r; unit_ := unit_ r; ttl := ttl r;
     nonce := nonce r; merkleId := merkleId r; payer := payer r;
     gatewayPubkey := x; ts := ts r; sig := sig r |}.

(** Base64 text decodes to the bytes it encodes, and the gateway's signature
    over a message verifies under the gateway's public key. *)
Definition base64_round_trip (E : Externals) : Prop :=
  ∀ b : bytes, Buffer_from_base64 E (Some (Buffer_toString_base64 E b)) = Ok b.

Definition gateway_signature_verifies (E : Externals) (kp : KeyPair) : Prop :=
  ∀ m : bytes,
    nacl_sign_detached_verify E m (nacl_sign_detached E m (secretKey kp)) (publicKey kp)
    = Ok true.

(** Two receipts that differ in exactly one of the six fields that
    [messageFromReceipt] joins. *)
Definition differ_in_one_signed_field (r r' : Receipt) : Prop :=
  (feature r ≠ feature r' ∧ amount r = amount r' ∧ unit_ r = unit_ r'
   ∧ nonce r = nonce r' ∧ merkleId r = merkleId r' ∧ ts r = ts r')
  ∨ (feature r = feature r' ∧ amount r ≠ amount r' ∧ unit_ r = unit_ r'
     ∧ nonce r = nonce r' ∧ merkleId r = merkleId r' ∧ ts r = ts r')
  ∨ (feature r = feature r' ∧ amount r = amount r' ∧ unit_ r ≠ unit_ r'
     ∧ nonce r = nonce r' ∧ merkleId r = merkleId r' ∧ ts r = ts r')
  ∨ (feature r = feature r' ∧ amount r = amount r' ∧ unit_ r = unit_ r'
     ∧ nonce r ≠ nonce r' ∧ merkleId r = merkleId r' ∧ ts r = ts r')
  ∨ (feature r = feature r' ∧ amount r = amount r' ∧ unit_ r = unit_ r'
     ∧ nonce r = nonce r' ∧ merkleId r ≠ merkleId r' ∧ ts r = ts r')
  ∨ (feature r = feature r' ∧ amount r = amount r' ∧ unit_ r = unit_ r'
     ∧ nonce r = nonce r' ∧ merkleId r = merkleId r' ∧ ts r ≠ ts r').

(** A computation that reads nothing of the world and only adds to the call
    log: it ends the same way, with the same calls, from every world. *)
Definition logs_only {A} (m : M A) : Prop :=
  ∃ r cs, ∀ w, m w = (r, append_calls cs w).

(** Such a computation that, moreover, never throws. *)
Definition answers {A} (m : M A) : Prop :=
  ∃ a cs, ∀ w, m w = (Ok a, append_calls cs w).

(** ** A small concrete environment

    Stand-ins for the imported libraries, used to run the handlers on
    concrete requests.  Base64 and base58 text is the byte string itself; a
    signature is the 32-byte public key followed by the message, padded with
    zeros to 32 bytes when shorter; the verifier throws on a signature under
    64 bytes and on a public key that is not 32 bytes. *)
Module Sample.

Definition pad (m : bytes) : bytes := (m ++ repeat Byte.x00 (32 - length m))%list.

Fixpoint bytes_eqb (a b : bytes) : bool :=
  match a, b with
  | [], [] => true
  | x :: a', y :: b' => Byte.eqb x y && bytes_eqb a' b'
  | _, _ => false
  end.

Definition sign_detached (m sk : bytes) : bytes := (drop 32 sk ++ pad m)%list.

Definition sign_detached_verify (m sg pk : bytes) : result bool :=
  if Z.of_nat (length sg) <? 64 then Throw (Error "bad signature size")
  else if negb (Z.of_nat (length pk) =? 32) then Throw (Error "bad public key size")
  else Ok (bytes_eqb sg (pk ++ pad m)%list).

Definition from_text (s : option string) : result bytes :=
  match s with
  | None => Throw TypeError
  | Some s => Ok (list_byte_of_string s)
  end.

(** An account that contains the character 0 is not base58. *)
Fixpoint has_zero (s : string) : bool :=
  match s with
  | EmptyString => false
  | String c rest => Ascii.eqb c "0"%char || has_zero rest
  end.

Definition decode58 (s : option string) : result bytes :=
  match s with
  | None => Throw TypeError
  | Some s => if has_zero s then Throw (Error "Non-base58 character")
              else Ok (list_byte_of_string s)
  end.

(** A recoverable signature is the signer's address itself. *)
Definition recover (msg : string + bytes) (sg : option string) : result string :=
  match sg with
  | None => Throw TypeError
  | Some s => if String.eqb s "" then Throw (Error "invalid signature") else Ok s
  end.

Definition seed_pair (seed : bytes) : KeyPair :=
  {| publicKey := take 32 (pad seed); secretKey := (take 32 (pad seed) ++ take 32 (pad seed))%list |}.

Definition env (clock : nat -> Z) : Externals :=
  {| Date_now := clock;
     crypto_randomUUID := fun i => "6f1c-" +:+ pretty (Z.of_nat i);
     crypto_randomBytes32_hex := fun i => "ab" +:+ pretty (Z.of_nat i);
     Buffer_toString_base64 := string_of_list_byte;
     Buffer_from_base64 := from_text;
     bs58_decode := decode58;
     nacl_sign_keyPair := seed_pair (list_byte_of_string "random");
     nacl_sign_keyPair_fromSeed := seed_pair;
     nacl_sign_detached := sign_detached;
     nacl_sign_detached_verify := sign_detached_verify;
     ethers_verifyMessage := recover;
     ethers_getBytes := fun _ => Throw (Error "invalid BytesLike value");
     toLowerCase := fun s => s;
     JSON_parse := fun _ => Throw (Error "Unexpected token") |}.

Definition kp : KeyPair := seed_pair (list_byte_of_string "gateway-seed").

(** A wallet: its base58 account and the signature it gives a message. *)
Definition alice : string := "Alice111111111111111111111111111".

Definition alice_signs (msg : string) : string :=
  string_of_list_byte (list_byte_of_string alice ++ pad (list_byte_of_string msg))%list.

Definition invoice0 : Invoice :=
  {| inv_feature := "api.translate"; inv_amount := "0.01"; inv_unit := "SOL";
     inv_ttl := 90; inv_nonce := "n0"; inv_merkleId := "c0ffee";
     inv_ts := 1700000000; inv_wallet := "phantom" |}.

Definition proof0 : WalletProof :=
  {| kind := Some "solana"; account := Some alice;
     signatureBase64 := Some (alice_signs (messageFromInvoice invoice0));
     signatureHex := None |}.

Definition settle0 : option SettleBody :=
  Some {| invoice := Some invoice0; walletProof := Some proof0 |}.

(** A proof that verifies nothing: its signature is too short. *)
Definition bogus : WalletProof :=
  {| kind := Some "solana"; account := Some alice;
     signatureBase64 := Some "AAAA"; signatureHex := None |}.

Definition mallory : string := "Mallory1111111111111111111111111".

(** Clocks: one that advances 100 ms per reading from second 1700000010;
    one that stands still there; one that jumps past the end of
    [invoice0]'s window after two readings; one that passes from the last
    second of the window to the next after three readings. *)
Definition steady (i : nat) : Z := 1700000010000 + 100 * Z.of_nat i.
Definition frozen (i : nat) : Z := 1700000010000.
Definition jump (i : nat) : Z :=
  if (i <? 2)%nat then 1700000010000 else 1700000100000.
Definition edge (i : nat) : Z :=
  if (i <? 3)%nat then 1700000090999 else 1700000091000.

(** The receipt [invoice0] settles into, and the world after. *)
Definition receipt0 : Receipt := signed_receipt (env steady) kp invoice0 proof0.

Definition settled (clock : nat -> Z) : World :=
  (api_settle (env clock) kp settle0 initial).2.

(** A ledger with a live and an expired entry; an archive at capacity. *)
Definition ledger0 : World :=
  {| receipts := [];
     usedNonces := <["old" := 1600000000]> (<["n0" := 1700000090]> ∅);
     clock_reads := 0; draws := 0; calls := [] |}.

Definition archive500 : World :=
  {| receipts := repeat receipt0 500; usedNonces := ∅;
     clock_reads := 0; draws := 0; calls := [] |}.

End Sample.

(** ** Vocabulary of the further properties *)

(** [w'] has the ledger and the archive of [w], and a clock read no fewer
    times. *)
Definition state_kept (w w' : World) : Prop :=
  usedNonces w' = usedNonces w ∧ receipts w' = receipts w
  ∧ (clock_reads w ≤ clock_reads w')%nat.

(** A computation every run of which ends in a world related to its start. *)
Definition stable (R : World → World → Prop) {A} (m : M A) : Prop :=
  ∀ w, R w (m w).2.

(** A string without the character [-]. *)
Definition no_dash (s : string) : Prop := "-"%char ∉ list_ascii_of_string s.

(** A receipt that [/api/settle] signs for some invoice and some wallet
    proof that verifies over the invoice's canonical message. *)
Definition backed_by_proof (E : Externals) (kp : KeyPair) (r : Receipt) : Prop :=
  ∃ inv p, r = signed_receipt E kp inv p
           ∧ verdict (verifyWalletProof E (messageFromInvoice inv) p) = true.

(** *** index.js: the allowed origins

    [String.prototype.trim] is taken as a parameter; [s.split(',')] cuts at
    every comma and keeps empty pieces. *)

Fixpoint split (sep : ascii) (s : string) : list string :=
  match s with
  | EmptyString => [EmptyString]
  | String c rest =>
      if Ascii.eqb c sep then EmptyString :: split sep rest
      else match split sep rest with
           | [] => [String c EmptyString]
           | piece :: pieces => String c piece :: pieces
           end
  end.

(** [(process.env.ORIGIN || 'https://quantum402.dev').split(',').map(s => s.trim())] *)
Definition allowed (trim : string → string) (ORIGIN : option string) : list string :=
  let configured :=
    match ORIGIN with
    | Some o => if String.eqb o "" then "https://quantum402.dev" else o
    | None => "https://quantum402.dev"
    end in
  map trim (split ","%char configured).

(** The [origin(origin, cb)] option of [cors]: [cb(null, true)] is [Ok true],
    [cb(new Error('Not allowed by CORS'))] is the error. *)
Definition cors_origin (trim : string → string) (ORIGIN : option string)
    (origin : option string) : result bool :=
  match origin with
  | None => Ok true
  | Some o =>
      if String.eqb o "" then Ok true
      else if bool_decide (o ∈ allowed trim ORIGIN) then Ok true
      else Throw (Error "Not allowed by CORS")
  end.

(** Further concrete inputs: an environment whose [JSON.parse] reads one
    header as [receipt0]; a proof of a kind the gateway does not know; the
    invoice that [/api/invoice] issues from the start-up world for a ttl of
    -5; an invoice that reuses the nonce of the expired entry of [ledger0],
    with its proof. *)
Module Scenario.

Import Sample.

Definition header0 : string := "receipt0-as-json".

Definition env_json (clock : nat -> Z) : Externals :=
  {| Date_now := clock;
     crypto_randomUUID := crypto_randomUUID (env clock);
     crypto_randomBytes32_hex := crypto_randomBytes32_hex (env clock);
     Buffer_toString_base64 := string_of_list_byte;
     Buffer_from_base64 := from_text;
     bs58_decode := decode58;
     nacl_sign_keyPair := nacl_sign_keyPair (env clock);
     nacl_sign_keyPair_fromSeed := seed_pair;
     nacl_sign_detached := sign_detached;
     nacl_sign_detached_verify := sign_detached_verify;
     ethers_verifyMessage := recover;
     ethers_getBytes := ethers_getBytes (env clock);
     toLowerCase := fun s => s;
     JSON_parse := fun h => if String.eqb h header0 then Ok receipt0
                            else Throw (Error "Unexpected token") |}.

Definition bitcoin_proof : WalletProof :=
  {| kind := Some "bitcoin"; account := Some alice;
     signatureBase64 := Some (alice_signs (messageFromInvoice invoice0));
     signatureHex := None |}.

Definition short_lived : option InvoiceParams :=
  Some {| p_feature := None; p_amount := None; p_unit := None;
          p_ttlSec := Some (-5); p_wallet := None |}.

Definition issued_short_lived : Invoice :=
  {| inv_feature := "api.translate"; inv_amount := "0.01"; inv_unit := "SOL";
     inv_ttl := -5; inv_nonce := "6f1c0"; inv_merkleId := "ab1";
     inv_ts := 1700000010; inv_wallet := "phantom" |}.

Definition invoice_old : Invoice :=
  {| inv_feature := "api.translate"; inv_amount := "0.01"; inv_unit := "SOL";
     inv_ttl := 90; inv_nonce := "old"; inv_merkleId := "c0ffee";
     inv_ts := 1700000000; inv_wallet := "phantom" |}.

Definition proof_old : WalletProof :=
  {| kind := Some "solana"; account := Some alice;
     signatureBase64 := Some (alice_signs (messageFromInvoice invoice_old));
     signatureHex := None |}.

End Scenario.

(** * Properties *)

(** ** The receipt archive *)

Lemma rememberReceipt_receipts r w :
  receipts (rememberReceipt r w).2 =
    if 500 <? Z.of_nat (length (r :: receipts w))
    then removelast (r :: receipts w) else r :: receipts w.
Proof. reflexivity. Qed.

Lemma removelast_cons_length {A} (x : A) (l : list A) :
  length (removelast (x :: l)) = length l.
Proof.
  revert x. induction l as [|y l IH]; intros x; [reflexivity|].
  change (removelast (x :: y :: l)) with (x :: removelast (y :: l)).
  cbn [length]. f_equal. apply IH.
Qed.

Lemma rememberReceipt_bound r w :
  (length (receipts w) ≤ 500)%nat →
  (length (receipts (rememberReceipt r w).2) ≤ 500)%nat.
Proof.
  intros Hlen. rewrite rememberReceipt_receipts.
  destruct (Z.ltb_spec 500 (Z.of_nat (length (r :: receipts w)))) as [Hgt|Hle].
  - rewrite removelast_cons_length. exact Hlen.
  - lia.
Qed.

Lemma rememberReceipt_head r w :
  (length (receipts w) ≤ 500)%nat →
  head (receipts (rememberReceipt r w).2) = Some r.
Proof.
  intros Hlen. rewrite rememberReceipt_receipts.
  destruct (Z.ltb_spec 500 (Z.of_nat (length (r :: receipts w)))) as [Hgt|Hle];
    [|reflexivity].
  destruct (receipts w) as [|r' rs] eqn:Hrs; [simpl in Hgt; lia|reflexivity].
Qed.

Lemma remember_all_bound rs : ∀ w,
  (length (receipts w) ≤ 500)%nat →
  (length (receipts (remember_all rs w)) ≤ 500)%nat.
Proof.
  induction rs as [|r rs IH]; intros w Hlen; [exact Hlen|].
  apply IH, rememberReceipt_bound, Hlen.
Qed.

Lemma remember_all_snoc rs r w :
  remember_all (rs ++ [r]) w = (rememberReceipt r (remember_all rs w)).2.
Proof. unfold remember_all. by rewrite fold_left_app. Qed.

(** C9. From an archive of at most 500 receipts, any sequence of
    [rememberReceipt] calls leaves at most 500 receipts, with the receipt
    recorded last at the front; a further insertion into the archive so
    reached drops exactly its last (oldest) entry when it holds 500, and
    drops nothing when it holds fewer. *)
Theorem archive_bounded_most_recent_first (w : World) (rs : list Receipt) :
  (length (receipts w) ≤ 500)%nat →
  let w' := remember_all rs w in
  (length (receipts w') ≤ 500)%nat
  ∧ (∀ rs' r, rs = (rs' ++ [r])%list → head (receipts w') = Some r)
  ∧ (∀ r, length (receipts w') = 500%nat →
       receipts (rememberReceipt r w').2 = r :: removelast (receipts w'))
  ∧ (∀ r, (length (receipts w') < 500)%nat →
       receipts (rememberReceipt r w').2 = r :: receipts w').
Proof.
  intros Hlen w'.
  assert (Hlen' : (length (receipts w') ≤ 500)%nat) by by apply remember_all_bound.
  split; [exact Hlen'|]. split; [|split].
  - intros rs' r ->. unfold w'. rewrite remember_all_snoc.
    apply rememberReceipt_head, remember_all_bound, Hlen.
  - intros r Hfull. rewrite rememberReceipt_receipts.
    destruct (Z.ltb_spec 500 (Z.of_nat (length (r :: receipts w')))) as [_|Hle];
      [|simpl in Hle; lia].
    destruct (receipts w') as [|r' l]; [discriminate Hfull|reflexivity].
  - intros r Hroom. rewrite rememberReceipt_receipts.
    destruct (Z.ltb_spec 500 (Z.of_nat (length (r :: receipts w')))) as [Hgt|_];
      [simpl in Hgt; lia|reflexivity].
Qed.

(** ** The nonce ledger *)

Section Ledger.

Variable E : Externals.

Lemma seenNonce_run n w :
  seenNonce E n w =
    match usedNonces w !! n with
    | None => (Ok false, w)
    | Some e => if e =? 0 then (Ok false, w) else (Ok (e >=? now_at E w), tick w)
    end.
Proof.
  unfold seenNonce, bind, gets. destruct (usedNonces w !! n) as [e|]; [|reflexivity].
  destruct (e =? 0); reflexivity.
Qed.

Lemma cleanupNonces_run w :
  cleanupNonces E w =
    (Ok tt, set_usedNonces
              (filter (fun kv => ¬ (kv.2 < now_at E w)) (usedNonces w)) (tick w)).
Proof. reflexivity. Qed.

Lemma geb_false_lt (e now : Z) : e < now → (e >=? now) = false.
Proof. intros H. rewrite Z.geb_leb. apply Z.leb_gt, H. Qed.

Lemma geb_true_le (e now : Z) : now ≤ e → (e >=? now) = true.
Proof. intros H. rewrite Z.geb_leb. apply Z.leb_le, H. Qed.

(** What eviction at second [now] leaves in the map. *)
Lemma evicted_lookup (now : Z) (m : gmap string Z) (k : string) (e : Z) :
  filter (fun kv => ¬ (kv.2 < now)) m !! k = Some e ↔ m !! k = Some e ∧ now ≤ e.
Proof. rewrite map_lookup_filter_Some. simpl. intuition lia. Qed.

Lemma evicted_lookup_None (now : Z) (m : gmap string Z) (k : string) :
  filter (fun kv => ¬ (kv.2 < now)) m !! k = None ↔
  m !! k = None ∨ ∃ e, m !! k = Some e ∧ e < now.
Proof.
  rewrite map_lookup_filter_None. simpl. split.
  - intros [Hn|Hall]; [by left|].
    destruct (m !! k) as [e|] eqn:Hk; [|by left].
    right. exists e. split; [done|]. specialize (Hall e eq_refl). lia.
  - intros [Hn|(e & He & Hlt)]; [by left|].
    right. intros x Hx. rewrite He in Hx. injection Hx as <-. lia.
Qed.

(** Eviction is invisible to a later [seenNonce]: if the clock does not run
    backwards between the eviction and the lookup, the lookup answers as it
    would have, had the eviction only read the clock. *)
Lemma eviction_transparent n w :
  Date_now E (clock_reads w) / 1000 ≤ Date_now E (S (clock_reads w)) / 1000 →
  (seenNonce E n (cleanupNonces E w).2).1 = (seenNonce E n (tick w)).1.
Proof.
  intros Hmono. rewrite cleanupNonces_run, !seenNonce_run. cbn [snd].
  change (usedNonces (set_usedNonces ?m ?v)) with m.
  change (usedNonces (tick w)) with (usedNonces w).
  change (now_at E (set_usedNonces ?m (tick w))) with (now_at E (tick w)).
  destruct (filter _ (usedNonces w) !! n) as [e|] eqn:Hf.
  - apply evicted_lookup in Hf as [-> _]. by destruct (e =? 0).
  - apply evicted_lookup_None in Hf as [->|(e & -> & Hlt)]; [done|].
    destruct (e =? 0); [done|]. cbn [fst]. f_equal. symmetry.
    unfold now_at in *. cbn [clock_reads tick]. apply geb_false_lt. lia.
Qed.

(** C8. While the clock shows one and the same second, [seenNonce] answers
    the same before and after [cleanupNonces]: the eviction drops exactly the
    entries whose expiry is below the current second, and, once the clock is
    past the epoch, [seenNonce] is true exactly for a nonce with an entry
    whose expiry is at or after the current second. *)
Theorem eviction_preserves_seen (n : string) (w : World) (now : Z) :
  (∀ i : nat, (clock_reads w ≤ i ≤ clock_reads w + 2)%nat →
     Date_now E i / 1000 = now) →
  (seenNonce E n (cleanupNonces E (seenNonce E n w).2).2).1 = (seenNonce E n w).1
  ∧ (∀ k e, usedNonces (cleanupNonces E w).2 !! k = Some e ↔
            usedNonces w !! k = Some e ∧ ¬ e < now)
  ∧ (0 < now →
     ((seenNonce E n w).1 = Ok true ↔ ∃ e, usedNonces w !! n = Some e ∧ now ≤ e)).
Proof.
  intros Hstill.
  assert (H0 : now_at E w = now) by (apply Hstill; lia).
  assert (H1 : now_at E (tick w) = now) by (apply Hstill; simpl; lia).
  assert (H2 : now_at E (tick (tick w)) = now) by (apply Hstill; simpl; lia).
  split; [|split].
  - rewrite (seenNonce_run n w).
    destruct (usedNonces w !! n) as [e|] eqn:Hn; cbn [fst snd].
    + destruct (e =? 0) eqn:Hz; cbn [fst snd].
      * rewrite cleanupNonces_run, seenNonce_run. cbn [snd].
        change (usedNonces (set_usedNonces ?m ?v)) with m.
        destruct (filter _ (usedNonces w) !! n) as [e'|] eqn:Hf; [|done].
        apply evicted_lookup in Hf as [Hf _]. rewrite Hn in Hf.
        injection Hf as <-. by rewrite Hz.
      * rewrite cleanupNonces_run, seenNonce_run. cbn [snd].
        change (usedNonces (set_usedNonces ?m ?v)) with m.
        change (usedNonces (tick w)) with (usedNonces w).
        change (now_at E (set_usedNonces ?m ?v)) with (now_at E v).
        rewrite H0, H1, H2.
        destruct (filter _ (usedNonces w) !! n) as [e'|] eqn:Hf.
        -- apply evicted_lookup in Hf as [Hf _]. rewrite Hn in Hf.
           injection Hf as <-. by rewrite Hz.
        -- apply evicted_lookup_None in Hf as [Hf|(e' & Hf & Hlt)];
             rewrite Hn in Hf; [discriminate|]. injection Hf as <-.
           cbn [fst]. f_equal. symmetry. apply geb_false_lt, Hlt.
    + rewrite cleanupNonces_run, seenNonce_run. cbn [snd].
      change (usedNonces (set_usedNonces ?m ?v)) with m.
      destruct (filter _ (usedNonces w) !! n) as [e'|] eqn:Hf; [|done].
      apply evicted_lookup in Hf as [Hf _]. rewrite Hn in Hf. discriminate.
  - intros k e. rewrite cleanupNonces_run. cbn [snd].
    change (usedNonces (set_usedNonces ?m ?v)) with m.
    rewrite H0, evicted_lookup. intuition lia.
  - intros Hpos. rewrite seenNonce_run, H0.
    destruct (usedNonces w !! n) as [e|] eqn:Hn; cbn [fst].
    + destruct (Z.eqb_spec e 0) as [->|Hne]; cbn [fst].
      * split; [discriminate|]. intros (e' & He' & Hle). injection He' as <-. lia.
      * split.
        -- intros Hge. exists e. split; [done|].
           injection Hge as Hge. rewrite Z.geb_leb in Hge. by apply Z.leb_le.
        -- intros (e' & He' & Hle). injection He' as <-. f_equal.
           by apply geb_true_le.
    + split; [discriminate|]. intros (e' & He' & _). discriminate.
Qed.

End Ledger.

(** ** The wallet-proof verifiers *)

Section Verifiers.

Variable E : Externals.

Lemma append_calls_nil w : append_calls [] w = w.
Proof. destruct w. unfold append_calls. simpl. by rewrite app_nil_r. Qed.

Lemma append_calls_app cs cs' w :
  append_calls cs' (append_calls cs w) = append_calls (cs ++ cs') w.
Proof. unfold append_calls. simpl. by rewrite app_assoc. Qed.

Lemma logs_only_ret {A} (a : A) : logs_only (ret a).
Proof. exists (Ok a), []. intros w. by rewrite append_calls_nil. Qed.

Lemma logs_only_throw {A} (e : exn) : logs_only (@throw A e).
Proof. exists (Throw e), []. intros w. by rewrite append_calls_nil. Qed.

Lemma logs_only_lift {A} (r : result A) : logs_only (lift r).
Proof. exists r, []. intros w. by rewrite append_calls_nil. Qed.

Lemma logs_only_extern {A} (c : Call) (r : result A) : logs_only (extern c r).
Proof. exists r, [c]. reflexivity. Qed.

Lemma logs_only_bind {A B} (m : M A) (k : A → M B) :
  logs_only m → (∀ a, logs_only (k a)) → logs_only (bind m k).
Proof.
  intros (r & cs & Hm) Hk. destruct r as [a|e].
  - destruct (Hk a) as (r' & cs' & Hka). exists r', (cs ++ cs')%list.
    intros w. unfold bind. by rewrite Hm, Hka, append_calls_app.
  - exists (Throw e), cs. intros w. unfold bind. by rewrite Hm.
Qed.

Lemma answers_ret {A} (a : A) : answers (ret a).
Proof. exists a, []. intros w. by rewrite append_calls_nil. Qed.

Lemma answers_bind {A B} (m : M A) (k : A → M B) :
  answers m → (∀ a, answers (k a)) → answers (bind m k).
Proof.
  intros (a & cs & Hm) Hk. destruct (Hk a) as (b & cs' & Hka).
  exists b, (cs ++ cs')%list. intros w. unfold bind.
  by rewrite Hm, Hka, append_calls_app.
Qed.

(** [try { m } catch { h }] with a handler that answers always answers. *)
Lemma answers_try_catch {A} (m : M A) (h : exn → M A) :
  logs_only m → (∀ e, answers (h e)) → answers (try_catch m h).
Proof.
  intros (r & cs & Hm) Hh. destruct r as [a|e].
  - exists a, cs. intros w. unfold try_catch. by rewrite Hm.
  - destruct (Hh e) as (a & cs' & Hhe). exists a, (cs ++ cs')%list.
    intros w. unfold try_catch. by rewrite Hm, Hhe, append_calls_app.
Qed.

Lemma answers_run (m : M bool) :
  answers m → ∀ w, m w = (Ok (verdict m), append_calls (calls_of m) w).
Proof.
  intros (b & cs & Hm) w. unfold verdict, calls_of. rewrite (Hm initial), Hm.
  reflexivity.
Qed.

Lemma same_address_logs_only recovered account :
  logs_only (same_address E recovered account).
Proof.
  unfold same_address. destruct account; [apply logs_only_ret|apply logs_only_throw].
Qed.

Lemma verifySolanaMessage_answers message sg account :
  answers (verifySolanaMessage E message sg account).
Proof.
  apply answers_try_catch; [|intros _; apply answers_ret].
  apply logs_only_bind; [apply logs_only_extern|intros pub].
  apply logs_only_bind; [apply logs_only_lift|intros sgb].
  apply logs_only_extern.
Qed.

Lemma verifyEvmMessage_answers message sg account :
  answers (verifyEvmMessage E message sg account).
Proof.
  apply answers_bind.
  - apply answers_try_catch; [|intros _; apply answers_ret].
    apply logs_only_bind; [apply logs_only_extern|intros recovered1].
    apply logs_only_bind; [apply same_address_logs_only|intros same].
    apply logs_only_ret.
  - intros [b|]; [apply answers_ret|].
    apply answers_try_catch; [|intros _; apply answers_ret].
    apply logs_only_bind; [apply logs_only_extern|intros raw].
    apply logs_only_bind; [apply logs_only_extern|intros recovered2].
    apply same_address_logs_only.
Qed.

(** Each verifier begins with a library call, so a run of either shows on
    the log. *)
Lemma verifySolanaMessage_logs message sg account w :
  ∃ cs, calls (verifySolanaMessage E message sg account w).2
        = (calls w ++ Call_bs58_decode account :: cs)%list.
Proof.
  unfold verifySolanaMessage, try_catch, bind, extern, lift, ret.
  destruct (bs58_decode E account) as [pub|e]; [|by exists []].
  destruct (Buffer_from_base64 E sg) as [sgb|e]; [|by exists []].
  exists [Call_nacl_verify (enc message) sgb pub].
  destruct (nacl_sign_detached_verify E (enc message) sgb pub);
    cbn; by rewrite <- app_assoc.
Qed.

Lemma verifyEvmMessage_logs message sg account w :
  ∃ cs, calls (verifyEvmMessage E message sg account w).2
        = (calls w ++ Call_ethers_verifyMessage (inl message) sg :: cs)%list.
Proof.
  destruct (verifyEvmMessage_answers message sg account) as (b & cs & H).
  pose proof (H w) as Hw. pose proof (H initial) as Hi. rewrite Hw. cbn.
  assert (∃ cs', cs = Call_ethers_verifyMessage (inl message) sg :: cs')
    as [cs' ->]; [|by exists cs'].
  apply (f_equal (fun x => calls x.2)) in Hi. cbn in Hi. rewrite <- Hi.
  unfold verifyEvmMessage, same_address, try_catch, bind, extern, throw, ret.
  destruct (ethers_verifyMessage E (inl message) sg) as [rec1|e1]; cbn.
  - destruct account as [a|]; cbn.
    + destruct (String.eqb (toLowerCase E rec1) (toLowerCase E a)); cbn;
        [by eexists|].
      destruct (ethers_getBytes E message) as [raw|]; cbn; [|by eexists].
      destruct (ethers_verifyMessage E (inr raw) sg); cbn; by eexists.
    + destruct (ethers_getBytes E message) as [raw|]; cbn; [|by eexists].
      destruct (ethers_verifyMessage E (inr raw) sg); cbn; by eexists.
  - destruct (ethers_getBytes E message) as [raw|]; cbn; [|by eexists].
    destruct (ethers_verifyMessage E (inr raw) sg) as [rec2|]; cbn; [|by eexists].
    destruct account; cbn; by eexists.
Qed.

Lemma verifyWalletProof_answers msg p : answers (verifyWalletProof E msg p).
Proof.
  unfold verifyWalletProof. destruct (kind p) as [k|]; [|apply answers_ret].
  destruct (String.eqb k "solana"); [apply verifySolanaMessage_answers|].
  destruct (String.eqb k "evm"); [apply verifyEvmMessage_answers|].
  apply answers_ret.
Qed.

Lemma verifyWalletProof_run msg p w :
  verifyWalletProof E msg p w =
    (Ok (verdict (verifyWalletProof E msg p)),
     append_calls (calls_of (verifyWalletProof E msg p)) w).
Proof. apply answers_run, verifyWalletProof_answers. Qed.

(** C7. Both verifiers return a boolean on every input and never throw.
    For the Ed25519 verifier an account that does not decode, a signature
    that [Buffer.from] rejects (a missing one included) and a verification
    that throws all answer [false], and otherwise the answer is tweetnacl's.
    For the recoverable verifier a missing account, and a signature that
    [ethers.verifyMessage] rejects for every message, answer [false]. *)
Theorem verifiers_total (message : string) (signature account : option string)
    (w : World) :
  (∃ b, (verifySolanaMessage E message signature account w).1 = Ok b)
  ∧ (∃ b, (verifyEvmMessage E message signature account w).1 = Ok b)
  ∧ (∀ e, bs58_decode E account = Throw e →
       (verifySolanaMessage E message signature account w).1 = Ok false)
  ∧ (∀ e, Buffer_from_base64 E signature = Throw e →
       (verifySolanaMessage E message signature account w).1 = Ok false)
  ∧ (∀ pub sgb e,
       bs58_decode E account = Ok pub →
       Buffer_from_base64 E signature = Ok sgb →
       nacl_sign_detached_verify E (enc message) sgb pub = Throw e →
       (verifySolanaMessage E message signature account w).1 = Ok false)
  ∧ (∀ pub sgb b,
       bs58_decode E account = Ok pub →
       Buffer_from_base64 E signature = Ok sgb →
       nacl_sign_detached_verify E (enc message) sgb pub = Ok b →
       (verifySolanaMessage E message signature account w).1 = Ok b)
  ∧ (account = None →
       (verifyEvmMessage E message signature account w).1 = Ok false)
  ∧ ((∀ msg, ∃ e, ethers_verifyMessage E msg signature = Throw e) →
       (verifyEvmMessage E message signature account w).1 = Ok false).
Proof.
  repeat split.
  - destruct (verifySolanaMessage_answers message signature account)
      as (b & cs & H). exists b. by rewrite H.
  - destruct (verifyEvmMessage_answers message signature account)
      as (b & cs & H). exists b. by rewrite H.
  - intros e He. unfold verifySolanaMessage, try_catch, bind, extern.
    by rewrite He.
  - intros e He. unfold verifySolanaMessage, try_catch, bind, extern, lift.
    destruct (bs58_decode E account); [by rewrite He|done].
  - intros pub sgb e Hp Hs Hv.
    unfold verifySolanaMessage, try_catch, bind, extern, lift.
    by rewrite Hp, Hs, Hv.
  - intros pub sgb b Hp Hs Hv.
    unfold verifySolanaMessage, try_catch, bind, extern, lift.
    by rewrite Hp, Hs, Hv.
  - intros ->. unfold verifyEvmMessage, same_address, try_catch, bind, extern, throw.
    destruct (ethers_verifyMessage E (inl message) signature);
      destruct (ethers_getBytes E message) as [raw|]; try done;
      by destruct (ethers_verifyMessage E (inr raw) signature).
  - intros Hbad. unfold verifyEvmMessage, same_address, try_catch, bind, extern.
    destruct (Hbad (inl message)) as (e1 & ->). cbn beta iota.
    destruct (ethers_getBytes E message) as [raw|]; [|done].
    by destruct (Hbad (inr raw)) as (e2 & ->).
Qed.

End Verifiers.

(** ** Settlement *)

Section Settlement.

Variable E : Externals.
Variable kp : KeyPair.

Lemma seenNonce_ok n w : seenNonce E n w = (Ok (seen_at E n w), (seenNonce E n w).2).
Proof.
  unfold seen_at. rewrite seenNonce_run.
  destruct (usedNonces w !! n) as [e|]; [|reflexivity].
  destruct (e =? 0); reflexivity.
Qed.

Lemma bind_ok {A B} (m : M A) (k : A → M B) w a w' :
  m w = (Ok a, w') → bind m k w = k a w'.
Proof. intros H. unfold bind. by rewrite H. Qed.

Lemma isFresh_run ts ttl w : isFresh E ts ttl w = (Ok (fresh_at E ts ttl w), tick w).
Proof. reflexivity. Qed.

(** [/api/settle] on a request with both parts, check by check. *)
Lemma api_settle_run inv p w :
  api_settle E kp (settle_request inv p) w =
    if negb (fresh_at E (inv_ts inv) (inv_ttl inv) w)
    then (Ok (status_json 400 (BError "expired")), tick w)
    else if seen_at E (inv_nonce inv) (tick w)
    then (Ok (status_json 409 (BError "replay")),
          (seenNonce E (inv_nonce inv) (tick w)).2)
    else
      let V := verifyWalletProof E (messageFromInvoice inv) p in
      let w3 := append_calls (calls_of V) (seenNonce E (inv_nonce inv) (tick w)).2 in
      if negb (verdict V)
      then (Ok (status_json 401 (BError "bad-wallet-proof")), w3)
      else
        let r := signed_receipt E kp inv p in
        (Ok (json (BReceipt r)),
         (rememberReceipt r
            (log (Call_nacl_sign (enc (messageFromReceipt (new_receipt E kp inv p))))
               (cleanupNonces E
                  (markNonce (inv_nonce inv) (inv_ts inv + inv_ttl inv) w3).2).2)).2).
Proof.
  unfold api_settle, settle_request, try_catch. cbn [mbind option_bind invoice walletProof].
  rewrite (bind_ok _ _ _ _ _ (isFresh_run _ _ _)).
  destruct (fresh_at E (inv_ts inv) (inv_ttl inv) w); cbn [negb]; [|reflexivity].
  rewrite (bind_ok _ _ _ _ _ (seenNonce_ok _ _)).
  destruct (seen_at E (inv_nonce inv) (tick w)); [reflexivity|].
  rewrite (bind_ok _ _ _ _ _ (verifyWalletProof_run _ _ _ _)).
  cbn zeta.
  destruct (verdict (verifyWalletProof E (messageFromInvoice inv) p));
    cbn [negb]; reflexivity.
Qed.

Lemma api_settle_missing rq w :
  rq ≫= invoice = None ∨ rq ≫= walletProof = None →
  api_settle E kp rq w = (Ok (status_json 400 (BError "missing-body")), w).
Proof.
  intros H. unfold api_settle, try_catch.
  destruct (rq ≫= invoice) as [inv|], (rq ≫= walletProof) as [p|];
    try reflexivity.
  destruct H; discriminate.
Qed.

Lemma settle_request_eta rq inv p :
  rq ≫= invoice = Some inv → rq ≫= walletProof = Some p → rq = settle_request inv p.
Proof.
  destruct rq as [[i q]|]; [|discriminate]. cbn. by intros -> ->.
Qed.

Lemma seenNonce_world n w :
  (seenNonce E n w).2 = w ∨ (seenNonce E n w).2 = tick w.
Proof.
  rewrite seenNonce_run. destruct (usedNonces w !! n) as [e|]; [|by left].
  destruct (e =? 0); [by left|by right].
Qed.

Lemma seenNonce_frame n w :
  usedNonces (seenNonce E n w).2 = usedNonces w
  ∧ receipts (seenNonce E n w).2 = receipts w
  ∧ calls (seenNonce E n w).2 = calls w.
Proof. destruct (seenNonce_world n w) as [-> | ->]; done. Qed.

(** C3. [/api/settle] decides in the order missing-body, expired, replay,
    bad-wallet-proof: its answer is the one the ordered checks of the
    specification give on the presence of both parts, the freshness
    [isFresh] computes, the answer of [seenNonce] and the verdict of the
    proof verifier, each failure with its own status and error code.  A
    request that is stale or replayed leaves the log of signature-library
    calls as it was: no verifier ran. *)
Theorem settle_check_order (rq : option SettleBody) (w : World) :
  match rq ≫= invoice, rq ≫= walletProof with
  | Some inv, Some p =>
      let fresh := fresh_at E (inv_ts inv) (inv_ttl inv) w in
      let seen := seen_at E (inv_nonce inv) (tick w) in
      let verified := verdict (verifyWalletProof E (messageFromInvoice inv) p) in
      (api_settle E kp rq w).1 =
        Ok (match ordered_checks true fresh seen verified with
            | Some (st, err) => status_json st (BError err)
            | None => json (BReceipt (signed_receipt E kp inv p))
            end)
      ∧ (fresh = false ∨ seen = true →
         calls (api_settle E kp rq w).2 = calls w)
  | _, _ =>
      (∀ fresh seen verified,
         ordered_checks false fresh seen verified = Some (400, "missing-body"))
      ∧ api_settle E kp rq w = (Ok (status_json 400 (BError "missing-body")), w)
  end.
Proof.
  destruct (rq ≫= invoice) as [inv|] eqn:Hi;
    [destruct (rq ≫= walletProof) as [p|] eqn:Hp|].
  - rewrite (settle_request_eta _ _ _ Hi Hp), api_settle_run. cbn zeta.
    unfold ordered_checks. cbn [negb].
    destruct (fresh_at E (inv_ts inv) (inv_ttl inv) w); cbn [negb].
    + destruct (seen_at E (inv_nonce inv) (tick w)).
      * split; [reflexivity|]. intros _. cbn [snd].
        by destruct (seenNonce_frame (inv_nonce inv) (tick w)) as (_ & _ & ->).
      * destruct (verdict (verifyWalletProof E (messageFromInvoice inv) p));
          cbn [negb]; (split; [reflexivity|]); intros [?|?]; discriminate.
    + split; [reflexivity|]. intros _. reflexivity.
  - split; [reflexivity|]. apply api_settle_missing. by right.
  - split; [reflexivity|]. apply api_settle_missing. by left.
Qed.

(** C6. A settle request with both parts present whose invoice window has
    elapsed when [isFresh] reads the clock is answered 400 expired, whatever
    the wallet proof. *)
Theorem settle_expired (inv : Invoice) (p : WalletProof) (w : World) :
  now_at E w - inv_ts inv > inv_ttl inv →
  (api_settle E kp (settle_request inv p) w).1 =
    Ok (status_json 400 (BError "expired")).
Proof.
  intros Hlate. rewrite api_settle_run.
  replace (fresh_at E (inv_ts inv) (inv_ttl inv) w) with false; [reflexivity|].
  symmetry. apply Z.leb_gt. lia.
Qed.

(** What an error answer of [/api/settle] leaves of the world. *)
Lemma api_settle_error_world rq w st err :
  (api_settle E kp rq w).1 = Ok (status_json st (BError err)) →
  usedNonces (api_settle E kp rq w).2 = usedNonces w
  ∧ receipts (api_settle E kp rq w).2 = receipts w
  ∧ (clock_reads w ≤ clock_reads (api_settle E kp rq w).2)%nat.
Proof.
  destruct (rq ≫= invoice) as [inv|] eqn:Hi;
    [destruct (rq ≫= walletProof) as [p|] eqn:Hp|].
  - rewrite (settle_request_eta _ _ _ Hi Hp), api_settle_run. cbn zeta.
    destruct (fresh_at E (inv_ts inv) (inv_ttl inv) w); cbn [negb];
      [|intros _; repeat split; simpl; lia].
    pose proof (seenNonce_world (inv_nonce inv) (tick w)) as Hw.
    destruct (seen_at E (inv_nonce inv) (tick w)).
    { intros _. cbn [snd]. destruct Hw as [-> | ->]; repeat split; simpl; lia. }
    destruct (verdict (verifyWalletProof E (messageFromInvoice inv) p)); cbn [negb].
    { intros H. discriminate H. }
    intros _. cbn [snd].
    change (usedNonces (append_calls ?cs ?v)) with (usedNonces v).
    change (receipts (append_calls ?cs ?v)) with (receipts v).
    change (clock_reads (append_calls ?cs ?v)) with (clock_reads v).
    destruct Hw as [-> | ->]; repeat split; simpl; lia.
  - rewrite api_settle_missing by (by right). intros _. repeat split. cbn. lia.
  - rewrite api_settle_missing by (by left). intros _. repeat split. cbn. lia.
Qed.

(** C5. Whenever [/api/settle] answers an error, whichever it is, the nonce
    ledger and the receipt archive are what they were before the call. *)
Theorem settle_error_leaves_state (rq : option SettleBody) (w : World)
    (st : Z) (err : string) :
  (api_settle E kp rq w).1 = Ok (status_json st (BError err)) →
  usedNonces (api_settle E kp rq w).2 = usedNonces w
  ∧ receipts (api_settle E kp rq w).2 = receipts w.
Proof.
  intros Herr. destruct (api_settle_error_world rq w st err Herr) as (Hm & Hr & _).
  by split.
Qed.

(** The verdict is [true] for an Ed25519 proof that decodes and that
    tweetnacl accepts, and for a recoverable proof whose first recovery gives
    the account up to letter case. *)
Lemma verdict_solana msg p pub sgb :
  kind p = Some "solana" →
  bs58_decode E (account p) = Ok pub →
  Buffer_from_base64 E (signatureBase64 p) = Ok sgb →
  nacl_sign_detached_verify E (enc msg) sgb pub = Ok true →
  verdict (verifyWalletProof E msg p) = true.
Proof.
  intros Hk Hp Hs Hv. unfold verdict, verifyWalletProof. rewrite Hk. cbn [String.eqb].
  change ("solana" =? "solana")%string with true. cbn iota.
  unfold verifySolanaMessage, try_catch, bind, extern, lift.
  by rewrite Hp, Hs, Hv.
Qed.

Lemma verdict_evm msg p a recovered :
  kind p = Some "evm" →
  account p = Some a →
  ethers_verifyMessage E (inl msg) (signatureHex p) = Ok recovered →
  toLowerCase E recovered = toLowerCase E a →
  verdict (verifyWalletProof E msg p) = true.
Proof.
  intros Hk Ha Hr Hl. unfold verdict, verifyWalletProof. rewrite Hk.
  change ("evm" =? "solana")%string with false.
  change ("evm" =? "evm")%string with true. cbn iota.
  unfold verifyEvmMessage, same_address, try_catch, bind, extern, ret.
  rewrite Hr, Ha, Hl, String.eqb_refl. reflexivity.
Qed.

(** C10. [/api/settle] asks nothing about where an invoice comes from: for
    any invoice at all that is fresh when [isFresh] reads the clock, whose
    nonce has no entry in the ledger and whose canonical message the wallet
    proof verifies, it answers 200 with a receipt that carries the invoice's
    feature, amount, unit, ttl, nonce, merkleId and ts, the proof's account
    as payer, the gateway's public key, and the gateway's signature over the
    receipt's canonical message. *)
Theorem settle_accepts_any_invoice (inv : Invoice) (p : WalletProof) (w : World) :
  fresh_at E (inv_ts inv) (inv_ttl inv) w = true →
  usedNonces w !! inv_nonce inv = None →
  verdict (verifyWalletProof E (messageFromInvoice inv) p) = true →
  ∃ r : Receipt,
    (api_settle E kp (settle_request inv p) w).1 = Ok (json (BReceipt r))
    ∧ feature r = inv_feature inv ∧ amount r = inv_amount inv
    ∧ unit_ r = inv_unit inv ∧ ttl r = inv_ttl inv ∧ nonce r = inv_nonce inv
    ∧ merkleId r = inv_merkleId inv ∧ ts r = inv_ts inv
    ∧ payer r = account p
    ∧ gatewayPubkey r = gatewayPubB64 E kp
    ∧ sig r = Some (toB64 E (nacl_sign_detached E (enc (messageFromReceipt r))
                                                (secretKey kp))).
Proof.
  intros Hfresh Hnew Hvalid. exists (signed_receipt E kp inv p).
  split; [|repeat split].
  rewrite api_settle_run, Hfresh. cbn [negb].
  replace (seen_at E (inv_nonce inv) (tick w)) with false.
  - cbn zeta. by rewrite Hvalid.
  - unfold seen_at. rewrite seenNonce_run.
    change (usedNonces (tick w)) with (usedNonces w). by rewrite Hnew.
Qed.

End Settlement.

(** ** Handlers that leave the ledger alone *)

Section Frame.

Variable E : Externals.
Variable kp : KeyPair.

Lemma ledger_kept_refl w : ledger_kept w w.
Proof. split; [reflexivity|lia]. Qed.

Lemma ledger_kept_trans w1 w2 w3 :
  ledger_kept w1 w2 → ledger_kept w2 w3 → ledger_kept w1 w3.
Proof. intros [H1 L1] [H2 L2]. split; [congruence|lia]. Qed.

Lemma keeps_ret {A} (a : A) : keeps_ledger (ret a).
Proof. intros w. apply ledger_kept_refl. Qed.

Lemma keeps_throw {A} (e : exn) : keeps_ledger (@throw A e).
Proof. intros w. apply ledger_kept_refl. Qed.

Lemma keeps_lift {A} (r : result A) : keeps_ledger (lift r).
Proof. intros w. apply ledger_kept_refl. Qed.

Lemma keeps_gets {A} (f : World → A) : keeps_ledger (gets f).
Proof. intros w. apply ledger_kept_refl. Qed.

Lemma keeps_extern {A} (c : Call) (r : result A) : keeps_ledger (extern c r).
Proof. intros w. split; [reflexivity|simpl; lia]. Qed.

Lemma keeps_bind {A B} (m : M A) (k : A → M B) :
  keeps_ledger m → (∀ a, keeps_ledger (k a)) → keeps_ledger (bind m k).
Proof.
  intros Hm Hk w. unfold bind. specialize (Hm w).
  destruct (m w) as [[a|e] w']; [|exact Hm].
  eapply ledger_kept_trans; [exact Hm|apply Hk].
Qed.

Lemma keeps_try_catch {A} (m : M A) (h : exn → M A) :
  keeps_ledger m → (∀ e, keeps_ledger (h e)) → keeps_ledger (try_catch m h).
Proof.
  intros Hm Hh w. unfold try_catch. specialize (Hm w).
  destruct (m w) as [[a|e] w']; [exact Hm|].
  eapply ledger_kept_trans; [exact Hm|apply Hh].
Qed.

Lemma keeps_floor_now : keeps_ledger (floor_now E).
Proof. intros w. split; [reflexivity|simpl; lia]. Qed.

Lemma keeps_isFresh ts ttl : keeps_ledger (isFresh E ts ttl).
Proof. apply keeps_bind; [apply keeps_floor_now|intros; apply keeps_ret]. Qed.

Lemma keeps_seenNonce n : keeps_ledger (seenNonce E n).
Proof.
  apply keeps_bind; [apply keeps_gets|]. intros [e|]; [|apply keeps_ret].
  destruct (e =? 0); [apply keeps_ret|].
  apply keeps_bind; [apply keeps_floor_now|intros; apply keeps_ret].
Qed.

Lemma keeps_makeNonce : keeps_ledger (makeNonce E).
Proof. intros w. split; [reflexivity|simpl; lia]. Qed.

Lemma keeps_randHex32 : keeps_ledger (randHex32 E).
Proof. intros w. split; [reflexivity|simpl; lia]. Qed.

Lemma keeps_verifyGateway msg sg pk : keeps_ledger (verifyGateway E msg sg pk).
Proof. apply keeps_bind; [apply keeps_lift|intros; apply keeps_extern]. Qed.

Ltac keeps :=
  repeat first
    [ apply keeps_ret | apply keeps_throw | apply keeps_lift | apply keeps_gets
    | apply keeps_extern | apply keeps_floor_now | apply keeps_isFresh
    | apply keeps_seenNonce | apply keeps_verifyGateway
    | apply keeps_bind; [|intros ?] | apply keeps_try_catch; [|intros ?]
    | match goal with |- keeps_ledger (if ?b then _ else _) => destruct b end
    | match goal with |- keeps_ledger (match ?x with _ => _ end) => destruct x end ].

Lemma keeps_api_health : keeps_ledger (api_health E).
Proof. unfold api_health, nowSec. keeps. Qed.

Lemma keeps_api_gateway : keeps_ledger (api_gateway E kp).
Proof. unfold api_gateway. keeps. Qed.

Lemma keeps_api_invoice b : keeps_ledger (api_invoice E kp b).
Proof.
  unfold api_invoice, nowSec.
  apply keeps_bind; [apply keeps_floor_now|intros ts].
  apply keeps_bind; [apply keeps_makeNonce|intros n].
  apply keeps_bind; [apply keeps_randHex32|intros m]. apply keeps_ret.
Qed.

Lemma keeps_api_receipts : keeps_ledger api_receipts.
Proof. unfold api_receipts. keeps. Qed.

Lemma keeps_api_verify b : keeps_ledger (api_verify E b).
Proof. unfold api_verify. keeps. Qed.

Lemma keeps_api_translate h : keeps_ledger (api_translate E h).
Proof. unfold api_translate. keeps. Qed.

End Frame.

(** ** Settlement happens once *)

Section ExactlyOnce.

Variable E : Externals.
Variable kp : KeyPair.

Hypothesis clock_mono : clock_monotone E.
Hypothesis clock_epoch : clock_after_epoch E.

Lemma now_at_mono w w' :
  (clock_reads w ≤ clock_reads w')%nat → now_at E w ≤ now_at E w'.
Proof.
  intros Hle. unfold now_at. apply Z.div_le_mono; [lia|]. by apply clock_mono.
Qed.

Lemma now_at_pos w : 1 ≤ now_at E w.
Proof.
  unfold now_at. apply Z.div_le_lower_bound; [lia|].
  specialize (clock_epoch (clock_reads w)). lia.
Qed.

Lemma holds_nonce_kept n T w w' :
  ledger_kept w w' → holds_nonce E n T w → holds_nonce E n T w'.
Proof.
  intros [Hm Hr] Hw Hnow. rewrite Hm. apply Hw.
  pose proof (now_at_mono w w' Hr). lia.
Qed.

(** While the window of a held nonce is open, [seenNonce] says so. *)
Lemma held_nonce_seen n T w :
  usedNonces w !! n = Some T → now_at E w ≤ T → seen_at E n w = true.
Proof.
  intros Hn Hnow. unfold seen_at. rewrite seenNonce_run, Hn.
  pose proof (now_at_pos w).
  destruct (Z.eqb_spec T 0) as [->|_]; [lia|]. cbn [fst]. by apply geb_true_le.
Qed.

Lemma verified_in_kept inv p w : ledger_kept w (verified_in E inv p w).
Proof.
  unfold verified_in. eapply ledger_kept_trans;
    [|eapply ledger_kept_trans; [apply (keeps_seenNonce E (inv_nonce inv) (tick w))|]].
  - split; [reflexivity|simpl; lia].
  - split; [reflexivity|simpl; lia].
Qed.

Lemma verified_in_after_tick inv p w :
  (clock_reads (tick w) ≤ clock_reads (verified_in E inv p w))%nat.
Proof.
  unfold verified_in.
  destruct (keeps_seenNonce E (inv_nonce inv) (tick w)) as [_ H]. exact H.
Qed.

Lemma settled_world r c n T w :
  usedNonces (rememberReceipt r (log c (cleanupNonces E (markNonce n T w).2).2)).2 =
    filter (fun kv => ¬ (kv.2 < now_at E w)) (<[n := T]> (usedNonces w))
  ∧ clock_reads (rememberReceipt r (log c (cleanupNonces E (markNonce n T w).2).2)).2 =
    S (clock_reads w).
Proof. split; reflexivity. Qed.

(** What a settle request that is answered with a receipt went through, and
    the ledger and clock position it leaves. *)
Lemma api_settle_receipt inv p w r :
  (api_settle E kp (settle_request inv p) w).1 = Ok (json (BReceipt r)) →
  fresh_at E (inv_ts inv) (inv_ttl inv) w = true
  ∧ seen_at E (inv_nonce inv) (tick w) = false
  ∧ usedNonces (api_settle E kp (settle_request inv p) w).2 =
      filter (fun kv => ¬ (kv.2 < now_at E (verified_in E inv p w)))
             (<[inv_nonce inv := inv_ts inv + inv_ttl inv]> (usedNonces w))
  ∧ clock_reads (api_settle E kp (settle_request inv p) w).2 =
      S (clock_reads (verified_in E inv p w)).
Proof.
  rewrite api_settle_run. cbn zeta.
  destruct (fresh_at E (inv_ts inv) (inv_ttl inv) w); cbn [negb]; [|discriminate].
  destruct (seen_at E (inv_nonce inv) (tick w)); [discriminate|].
  destruct (verdict (verifyWalletProof E (messageFromInvoice inv) p));
    cbn [negb]; [|discriminate].
  intros _. cbn [snd]. fold (verified_in E inv p w).
  destruct (settled_world (signed_receipt E kp inv p)
              (Call_nacl_sign (enc (messageFromReceipt (new_receipt E kp inv p))))
              (inv_nonce inv) (inv_ts inv + inv_ttl inv) (verified_in E inv p w))
    as [-> ->].
  destruct (verified_in_kept inv p w) as [-> _]. done.
Qed.

Lemma holds_nonce_settle n T rq w :
  holds_nonce E n T w → holds_nonce E n T (api_settle E kp rq w).2.
Proof.
  intros Hw.
  destruct (rq ≫= invoice) as [inv|] eqn:Hi;
    [destruct (rq ≫= walletProof) as [p|] eqn:Hp|];
    [|rewrite api_settle_missing by (by right); exact Hw
     |rewrite api_settle_missing by (by left); exact Hw].
  rewrite (settle_request_eta _ _ _ Hi Hp).
  destruct (api_settle E kp (settle_request inv p) w).1 as [[st [| | | err |r| | |]]|e]
    eqn:Hresp.
  all: try (exfalso; revert Hresp; rewrite api_settle_run; cbn zeta;
            destruct (fresh_at E (inv_ts inv) (inv_ttl inv) w); cbn [negb];
            [destruct (seen_at E (inv_nonce inv) (tick w));
             [|destruct (verdict (verifyWalletProof E (messageFromInvoice inv) p))]|];
            discriminate).
  - (* an error: the ledger is untouched *)
    destruct (api_settle_error_world E kp _ w st err Hresp) as (Hm & _ & Hr).
    intros Hnow. rewrite Hm. apply Hw.
    pose proof (now_at_mono _ _ Hr). lia.
  - (* a receipt *)
    assert (st = 200 ∧ True) as [-> _].
    { revert Hresp. rewrite api_settle_run. cbn zeta.
      destruct (fresh_at E (inv_ts inv) (inv_ttl inv) w); cbn [negb]; [|discriminate].
      destruct (seen_at E (inv_nonce inv) (tick w)); [discriminate|].
      destruct (verdict (verifyWalletProof E (messageFromInvoice inv) p));
        cbn [negb]; [|discriminate]. intros [= <-]. done. }
    destruct (api_settle_receipt inv p w r Hresp) as (Hfresh & Hseen & Hm & Hr).
    destruct (verified_in_kept inv p w) as [_ Hv].
    intros Hnow. rewrite Hm.
    assert (Hc : now_at E (verified_in E inv p w) ≤ T).
    { etransitivity; [apply now_at_mono|exact Hnow]. rewrite Hr. lia. }
    assert (Hold : usedNonces w !! n = Some T).
    { apply Hw. etransitivity; [apply now_at_mono|exact Hc]. exact Hv. }
    apply evicted_lookup. split; [|exact Hc].
    destruct (decide (inv_nonce inv = n)) as [Heq|Hne].
    + exfalso. rewrite Heq in Hseen.
      rewrite (held_nonce_seen n T (tick w)) in Hseen; [discriminate|exact Hold|].
      etransitivity; [apply now_at_mono|exact Hc].
      apply verified_in_after_tick.
    + by rewrite lookup_insert_ne.
Qed.

Lemma holds_nonce_handle n T rq w :
  holds_nonce E n T w → holds_nonce E n T (handle E kp rq w).2.
Proof.
  destruct rq; cbn [handle]; try apply holds_nonce_settle;
    apply holds_nonce_kept.
  - apply keeps_api_health.
  - apply keeps_api_gateway.
  - apply keeps_api_invoice.
  - apply keeps_api_receipts.
  - apply keeps_api_verify.
  - apply keeps_api_translate.
Qed.

Lemma holds_nonce_serve n T rqs : ∀ w,
  holds_nonce E n T w → holds_nonce E n T (serve E kp rqs w).
Proof.
  induction rqs as [|rq rqs IH]; intros w Hw; [exact Hw|].
  cbn [serve]. apply IH, holds_nonce_handle, Hw.
Qed.

Lemma holds_nonce_settled inv p w r :
  (api_settle E kp (settle_request inv p) w).1 = Ok (json (BReceipt r)) →
  holds_nonce E (inv_nonce inv) (inv_ts inv + inv_ttl inv)
              (api_settle E kp (settle_request inv p) w).2.
Proof.
  intros Hresp. destruct (api_settle_receipt inv p w r Hresp) as (_ & _ & Hm & Hr).
  intros Hnow. rewrite Hm. apply evicted_lookup.
  split; [by rewrite lookup_insert_eq|].
  etransitivity; [apply now_at_mono|exact Hnow]. rewrite Hr. lia.
Qed.

(** C2, amended. For an invoice of the data model (its nonce text, its ts
    and ttl integer seconds): once [/api/settle] has answered it with a
    receipt, then after any further requests, served in any number, the
    ledger holds the invoice's nonce with expiry ts + ttl for as long as the
    clock has not passed that second, and a settle request with the same
    invoice and any wallet proof is answered 400 expired if the window has
    closed when [isFresh] reads the clock, and 409 replay if the window is
    still open when [seenNonce] reads it.  Either way that request issues no
    receipt and leaves the ledger and the archive as they were.  While the
    window of the settled invoice is open at the reading of [seenNonce], no
    settle request that carries its nonce, with whatever other fields and
    proof, is answered with a receipt: it is answered expired or replay and
    writes nothing.  The clock is assumed not to run backwards and to show a
    time after the epoch. *)
Theorem settle_again_rejected (inv : Invoice) (p p' : WalletProof) (w : World)
    (r : Receipt) (rqs : list Request) :
  (api_settle E kp (settle_request inv p) w).1 = Ok (json (BReceipt r)) →
  let w' := serve E kp rqs (api_settle E kp (settle_request inv p) w).2 in
  holds_nonce E (inv_nonce inv) (inv_ts inv + inv_ttl inv) w'
  ∧ (fresh_at E (inv_ts inv) (inv_ttl inv) w' = false →
     (api_settle E kp (settle_request inv p') w').1 =
       Ok (status_json 400 (BError "expired")))
  ∧ (now_at E (tick w') ≤ inv_ts inv + inv_ttl inv →
     (api_settle E kp (settle_request inv p') w').1 =
       Ok (status_json 409 (BError "replay")))
  ∧ (fresh_at E (inv_ts inv) (inv_ttl inv) w' = false
     ∨ now_at E (tick w') ≤ inv_ts inv + inv_ttl inv →
     usedNonces (api_settle E kp (settle_request inv p') w').2 = usedNonces w'
     ∧ receipts (api_settle E kp (settle_request inv p') w').2 = receipts w')
  ∧ (∀ inv' : Invoice,
       inv_nonce inv' = inv_nonce inv →
       now_at E (tick w') ≤ inv_ts inv + inv_ttl inv →
       ((api_settle E kp (settle_request inv' p') w').1 =
          Ok (status_json 400 (BError "expired"))
        ∨ (api_settle E kp (settle_request inv' p') w').1 =
          Ok (status_json 409 (BError "replay")))
       ∧ usedNonces (api_settle E kp (settle_request inv' p') w').2 = usedNonces w'
       ∧ receipts (api_settle E kp (settle_request inv' p') w').2 = receipts w').
Proof.
  intros Hfirst w'.
  assert (Hheld : holds_nonce E (inv_nonce inv) (inv_ts inv + inv_ttl inv) w').
  { apply holds_nonce_serve. by eapply holds_nonce_settled. }
  assert (Hseen : now_at E (tick w') ≤ inv_ts inv + inv_ttl inv →
                  seen_at E (inv_nonce inv) (tick w') = true).
  { intros Hopen.
    assert (Hnow : now_at E w' ≤ inv_ts inv + inv_ttl inv).
    { etransitivity; [apply (now_at_mono w' (tick w'))|exact Hopen]. simpl. lia. }
    exact (held_nonce_seen (inv_nonce inv) (inv_ts inv + inv_ttl inv) (tick w')
             (Hheld Hnow) Hopen). }
  assert (Hstale : fresh_at E (inv_ts inv) (inv_ttl inv) w' = false →
                   (api_settle E kp (settle_request inv p') w').1 =
                     Ok (status_json 400 (BError "expired"))).
  { intros Hs. rewrite api_settle_run, Hs. reflexivity. }
  assert (Hother : ∀ inv' : Invoice,
            inv_nonce inv' = inv_nonce inv →
            now_at E (tick w') ≤ inv_ts inv + inv_ttl inv →
            (api_settle E kp (settle_request inv' p') w').1 =
              Ok (status_json 400 (BError "expired"))
            ∨ (api_settle E kp (settle_request inv' p') w').1 =
              Ok (status_json 409 (BError "replay"))).
  { intros inv' Hn Hopen. rewrite api_settle_run.
    destruct (fresh_at E (inv_ts inv') (inv_ttl inv') w'); cbn [negb];
      [|left; reflexivity].
    right. by rewrite Hn, (Hseen Hopen). }
  assert (Hopen : now_at E (tick w') ≤ inv_ts inv + inv_ttl inv →
                  (api_settle E kp (settle_request inv p') w').1 =
                    Ok (status_json 409 (BError "replay"))).
  { intros Ho. rewrite api_settle_run.
    replace (fresh_at E (inv_ts inv) (inv_ttl inv) w') with true.
    - cbn [negb]. by rewrite (Hseen Ho).
    - symmetry. apply Z.leb_le.
      pose proof (now_at_mono w' (tick w')) as Hm. simpl in Hm. lia. }
  split; [exact Hheld|]. split; [exact Hstale|]. split; [exact Hopen|]. split.
  - intros [Hs|Ho].
    + destruct (api_settle_error_world E kp _ w' _ _ (Hstale Hs)) as (Hm & Hr & _).
      by split.
    + destruct (api_settle_error_world E kp _ w' _ _ (Hopen Ho)) as (Hm & Hr & _).
      by split.
  - intros inv' Hn Ho. split; [by apply Hother|].
    destruct (Hother inv' Hn Ho) as [H|H];
      destruct (api_settle_error_world E kp _ w' _ _ H) as (Hm & Hr & _); by split.
Qed.

End ExactlyOnce.

(** ** Receipts *)

Section Receipts.

Variable E : Externals.
Variable kp : KeyPair.

Lemma api_settle_receipt_is rq w r :
  (api_settle E kp rq w).1 = Ok (json (BReceipt r)) →
  ∃ inv p, rq = settle_request inv p ∧ r = signed_receipt E kp inv p.
Proof.
  destruct (rq ≫= invoice) as [inv|] eqn:Hi;
    [destruct (rq ≫= walletProof) as [p|] eqn:Hp|];
    [|rewrite api_settle_missing by (by right); discriminate
     |rewrite api_settle_missing by (by left); discriminate].
  rewrite (settle_request_eta _ _ _ Hi Hp), api_settle_run. cbn zeta.
  destruct (fresh_at E (inv_ts inv) (inv_ttl inv) w); cbn [negb]; [|discriminate].
  destruct (seen_at E (inv_nonce inv) (tick w)); [discriminate|].
  destruct (verdict (verifyWalletProof E (messageFromInvoice inv) p));
    cbn [negb]; [|discriminate].
  intros [= <-]. by exists inv, p.
Qed.

(** [/api/verify] on a receipt, check by check. *)
Lemma api_verify_run r w :
  api_verify E (verify_request r) w =
    if negb (fresh_at E (ts r) (ttl r) w)
    then (Ok (json (BError "expired")), tick w)
    else
      match Buffer_from_base64 E (Some (gatewayPubkey r)), fromB64 E (sig r) with
      | Throw _, _ | Ok _, Throw _ =>
          (Ok (status_json 500 (BError "server-error")), tick w)
      | Ok pk, Ok sg =>
          let w1 := log (Call_nacl_verify (enc (messageFromReceipt r)) sg pk) (tick w) in
          match nacl_sign_detached_verify E (enc (messageFromReceipt r)) sg pk with
          | Throw _ => (Ok (status_json 500 (BError "server-error")), w1)
          | Ok false => (Ok (json (BError "bad-sig")), w1)
          | Ok true =>
              (Ok (json (BVerified (seen_at E (nonce r) w1))),
               (seenNonce E (nonce r) w1).2)
          end
      end.
Proof.
  unfold api_verify, verify_request, try_catch. cbn [mbind option_bind receipt].
  rewrite (bind_ok _ _ _ _ _ (isFresh_run E _ _ _)).
  destruct (fresh_at E (ts r) (ttl r) w); cbn [negb]; [|reflexivity].
  unfold verifyGateway, lift, extern, bind at 1 2 3.
  destruct (Buffer_from_base64 E (Some (gatewayPubkey r))) as [pk|e]; [|reflexivity].
  destruct (fromB64 E (sig r)) as [sg|e]; [|reflexivity].
  destruct (nacl_sign_detached_verify E (enc (messageFromReceipt r)) sg pk)
    as [[|]|e]; cbn [negb]; try reflexivity.
  by rewrite (bind_ok _ _ _ _ _ (seenNonce_ok E _ _)).
Qed.

Lemma messageFromReceipt_set_sig sg r :
  messageFromReceipt (set_sig sg r) = messageFromReceipt r.
Proof. reflexivity. Qed.

(** The receipt signed for an invoice and a proof passes [/api/verify]
    while fresh. *)
Lemma signed_receipt_accepted inv p w :
  base64_round_trip E →
  gateway_signature_verifies E kp →
  fresh_at E (ts (signed_receipt E kp inv p)) (ttl (signed_receipt E kp inv p)) w = true →
  let r := signed_receipt E kp inv p in
  let sg := nacl_sign_detached E (enc (messageFromReceipt r)) (secretKey kp) in
  fromB64 E (sig r) = Ok sg
  ∧ Buffer_from_base64 E (Some (gatewayPubkey r)) = Ok (publicKey kp)
  ∧ nacl_sign_detached_verify E (enc (messageFromReceipt r)) sg (publicKey kp) = Ok true
  ∧ ∃ flag, (api_verify E (verify_request r) w).1 = Ok (json (BVerified flag)).
Proof.
  intros Hb64 Hsig Hfresh r sg. fold r in Hfresh.
  assert (Hs : fromB64 E (sig r) = Ok sg) by apply Hb64.
  assert (Hk : Buffer_from_base64 E (Some (gatewayPubkey r)) = Ok (publicKey kp))
    by apply Hb64.
  assert (Hv : nacl_sign_detached_verify E (enc (messageFromReceipt r)) sg (publicKey kp)
               = Ok true) by apply Hsig.
  repeat split; try assumption.
  rewrite api_verify_run, Hfresh, Hk, Hs. cbn [negb]. cbn zeta.
  rewrite Hv. by eexists.
Qed.

(** C4. With base64 text decoding to the bytes it encodes and the gateway's
    signatures verifying under the gateway's public key, a receipt that
    [/api/settle] returned is accepted by [/api/verify] in every world in
    which it is still fresh: the signature in the receipt, decoded, verifies
    over the receipt's canonical message under the public key the receipt
    carries, and the answer is 200 ok with the replay-protected flag, whatever
    the flag is. *)
Theorem receipt_round_trip (rq : option SettleBody) (w w' : World) (r : Receipt) :
  base64_round_trip E →
  gateway_signature_verifies E kp →
  (api_settle E kp rq w).1 = Ok (json (BReceipt r)) →
  fresh_at E (ts r) (ttl r) w' = true →
  (∃ sg pk,
     fromB64 E (sig r) = Ok sg
     ∧ Buffer_from_base64 E (Some (gatewayPubkey r)) = Ok pk
     ∧ pk = publicKey kp
     ∧ nacl_sign_detached_verify E (enc (messageFromReceipt r)) sg pk = Ok true)
  ∧ ∃ flag, (api_verify E (verify_request r) w').1 = Ok (json (BVerified flag)).
Proof.
  intros Hb64 Hsig Hsettle Hfresh.
  destruct (api_settle_receipt_is rq w r Hsettle) as (inv & p & _ & ->).
  destruct (signed_receipt_accepted inv p w' Hb64 Hsig Hfresh) as (Hs & Hk & Hv & Hok).
  split; [|exact Hok]. eexists _, _. repeat split; eassumption.
Qed.

Lemma list_ascii_append (a b : string) :
  list_ascii_of_string (a +:+ b) = (list_ascii_of_string a ++ list_ascii_of_string b)%list.
Proof. induction a as [|c a IH]; [reflexivity|]. cbn. by rewrite <- IH. Qed.

Lemma append_inv_tail (a b s : string) : a +:+ s = b +:+ s → a = b.
Proof.
  intros H. apply (f_equal list_ascii_of_string) in H.
  rewrite !list_ascii_append in H. apply app_inv_tail in H.
  rewrite <- (string_of_list_ascii_of_string a), <- (string_of_list_ascii_of_string b).
  by rewrite H.
Qed.

Lemma message_differs (r r' : Receipt) :
  differ_in_one_signed_field r r' → messageFromReceipt r ≠ messageFromReceipt r'.
Proof.
  unfold messageFromReceipt. cbn [join].
  intros Hd Heq.
  destruct Hd as [(Hn & Ha & Hu & Hno & Hm & Ht)|[(Hf & Hn & Hu & Hno & Hm & Ht)|
    [(Hf & Ha & Hn & Hno & Hm & Ht)|[(Hf & Ha & Hu & Hn & Hm & Ht)|
    [(Hf & Ha & Hu & Hno & Hn & Ht)|(Hf & Ha & Hu & Hno & Hm & Hn)]]]]].
  - rewrite Ha, Hu, Hno, Hm, Ht in Heq. by apply append_inv_tail in Heq.
  - rewrite Hf, Hu, Hno, Hm, Ht in Heq.
    do 2 apply (inj (String.app _)) in Heq. by apply append_inv_tail in Heq.
  - rewrite Hf, Ha, Hno, Hm, Ht in Heq.
    do 4 apply (inj (String.app _)) in Heq. by apply append_inv_tail in Heq.
  - rewrite Hf, Ha, Hu, Hm, Ht in Heq.
    do 6 apply (inj (String.app _)) in Heq. by apply append_inv_tail in Heq.
  - rewrite Hf, Ha, Hu, Hno, Ht in Heq.
    do 8 apply (inj (String.app _)) in Heq. by apply append_inv_tail in Heq.
  - rewrite Hf, Ha, Hu, Hno, Hm in Heq.
    do 10 apply (inj (String.app _)) in Heq. by apply (inj pretty) in Heq.
Qed.

(** C1, amended. The message the gateway signs into [receipt.sig] is
    feature|amount|unit|nonce|merkleId|ts and holds neither payer nor
    gatewayPubkey.  For a receipt that [/api/settle] returned: replacing its
    payer by any value leaves the message and the whole answer of
    [/api/verify] unchanged, so the receipt still verifies while fresh;
    replacing its gatewayPubkey leaves the message unchanged, and leaves the
    answer unchanged when the new text decodes to the same bytes; a receipt
    that differs from it in exactly one of the six joined fields has another
    message; and for any receipt that is fresh and whose key and signature
    decode, the answer is bad-sig exactly when tweetnacl rejects the
    signature for the message recomputed from the receipt. *)
Theorem receipt_signature_binding (rq : option SettleBody) (w w' : World) (r : Receipt) :
  base64_round_trip E →
  gateway_signature_verifies E kp →
  (api_settle E kp rq w).1 = Ok (json (BReceipt r)) →
  (∀ x, messageFromReceipt (set_payer x r) = messageFromReceipt r
        ∧ api_verify E (verify_request (set_payer x r)) w'
          = api_verify E (verify_request r) w')
  ∧ (∀ x, fresh_at E (ts r) (ttl r) w' = true →
          ∃ flag, (api_verify E (verify_request (set_payer x r)) w').1
                  = Ok (json (BVerified flag)))
  ∧ (∀ g, messageFromReceipt (set_gatewayPubkey g r) = messageFromReceipt r
          ∧ (Buffer_from_base64 E (Some g)
             = Buffer_from_base64 E (Some (gatewayPubkey r)) →
             api_verify E (verify_request (set_gatewayPubkey g r)) w'
             = api_verify E (verify_request r) w'))
  ∧ (∀ r', differ_in_one_signed_field r r' →
           messageFromReceipt r' ≠ messageFromReceipt r)
  ∧ (∀ r' pk sg,
       fresh_at E (ts r') (ttl r') w' = true →
       Buffer_from_base64 E (Some (gatewayPubkey r')) = Ok pk →
       fromB64 E (sig r') = Ok sg →
       ((api_verify E (verify_request r') w').1 = Ok (json (BError "bad-sig"))
        ↔ nacl_sign_detached_verify E (enc (messageFromReceipt r')) sg pk = Ok false)).
Proof.
  intros Hb64 Hsig Hsettle. split; [|split; [|split; [|split]]].
  - intros x. split; reflexivity.
  - intros x Hfresh.
    destruct (api_settle_receipt_is rq w r Hsettle) as (inv & p & _ & ->).
    by destruct (signed_receipt_accepted inv p w' Hb64 Hsig Hfresh) as (_ & _ & _ & Hok).
  - intros g. split; [reflexivity|]. intros Hsame.
    rewrite !api_verify_run.
    change (gatewayPubkey (set_gatewayPubkey g r)) with g. by rewrite Hsame.
  - intros r' Hd Heq. by apply (message_differs r r').
  - intros r' pk sg Hfresh Hk Hs. rewrite api_verify_run, Hfresh, Hk, Hs.
    cbn [negb]. cbn zeta.
    destruct (nacl_sign_detached_verify E (enc (messageFromReceipt r')) sg pk)
      as [[|]|e]; cbn [fst]; split; intros H; try discriminate H; reflexivity.
Qed.

End Receipts.

(** * Concrete runs *)

Section Runs.

Import Sample.

Lemma bytes_eqb_refl (a : bytes) : bytes_eqb a a = true.
Proof.
  induction a as [|x a IH]; [reflexivity|]. cbn.
  assert (Byte.eqb x x = true) as -> by (by apply Byte.byte_dec_lb).
  exact IH.
Qed.

Lemma pad_length (m : bytes) : (32 ≤ length (pad m))%nat.
Proof. unfold pad. rewrite length_app, repeat_length. lia. Qed.

Lemma env_base64 clock : base64_round_trip (env clock).
Proof.
  intros b. change (from_text (Some (string_of_list_byte b)) = Ok b).
  unfold from_text. by rewrite list_byte_of_string_of_list_byte.
Qed.

Lemma env_signature clock : gateway_signature_verifies (env clock) kp.
Proof.
  intros m. cbn [nacl_sign_detached_verify nacl_sign_detached env].
  unfold sign_detached_verify, sign_detached.
  set (pk := drop 32 (secretKey kp)).
  assert (Hpk : publicKey kp = pk) by reflexivity.
  assert (Hlen : length pk = 32%nat) by reflexivity.
  rewrite Hpk.
  replace (Z.of_nat (length (pk ++ pad m)) <? 64) with false.
  - rewrite Hlen. cbn [Z.of_nat Z.eqb negb]. by rewrite bytes_eqb_refl.
  - symmetry. apply Z.ltb_ge. rewrite length_app, Hlen.
    pose proof (pad_length m). lia.
Qed.

Lemma steady_monotone : clock_monotone (env steady).
Proof. intros i j Hij. cbn. unfold steady. lia. Qed.

Lemma steady_after_epoch : clock_after_epoch (env steady).
Proof. intros i. cbn. unfold steady. lia. Qed.

(** The archive at capacity takes one more receipt and stays at 500, the
    new receipt first. *)
Lemma archive_at_capacity_run :
  (length (receipts (remember_all [receipt0] archive500)) ≤ 500)%nat
  ∧ head (receipts (remember_all [receipt0] archive500)) = Some receipt0.
Proof.
  pose proof (archive_bounded_most_recent_first archive500 [receipt0]) as H.
  cbv zeta in H. destruct H as (Hb & Hh & _).
  - vm_compute. apply le_n.
  - split; [exact Hb|]. by apply (Hh []).
Defined.

(** With the clock standing still, an expired entry is unseen before and
    after the eviction that removes it. *)
Lemma eviction_run :
  (seenNonce (env frozen) "old"
     (cleanupNonces (env frozen) (seenNonce (env frozen) "old" ledger0).2).2).1
  = (seenNonce (env frozen) "old" ledger0).1.
Proof.
  apply (proj1 (eviction_preserves_seen (env frozen) "old" ledger0 1700000010
                  (fun i _ => eq_refl))).
Defined.

(** After the clock has jumped past the window, the settled invoice is
    answered expired. *)
Lemma settle_expired_run :
  (api_settle (env jump) kp (settle_request invoice0 bogus) (settled jump)).1
  = Ok (status_json 400 (BError "expired")).
Proof. apply settle_expired. vm_compute. reflexivity. Defined.

(** A replayed request is answered with an error and changes neither the
    ledger nor the archive. *)
Lemma settle_error_run :
  usedNonces (api_settle (env steady) kp (settle_request invoice0 bogus)
                (settled steady)).2 = usedNonces (settled steady)
  ∧ receipts (api_settle (env steady) kp (settle_request invoice0 bogus)
                (settled steady)).2 = receipts (settled steady).
Proof.
  apply (settle_error_leaves_state (env steady) kp _ _ 409 "replay").
  vm_compute. reflexivity.
Defined.

(** An invoice the gateway never issued settles in the start-up world. *)
Lemma settle_fabricated_run :
  ∃ r, (api_settle (env steady) kp (settle_request invoice0 proof0) initial).1
       = Ok (json (BReceipt r))
       ∧ feature r = "api.translate" ∧ nonce r = "n0" ∧ payer r = Some alice.
Proof.
  destruct (settle_accepts_any_invoice (env steady) kp invoice0 proof0 initial)
    as (r & Hr & Hf & _ & _ & _ & Hn & _ & _ & Hp & _).
  - vm_compute. reflexivity.
  - reflexivity.
  - vm_compute. reflexivity.
  - exists r. by repeat split.
Defined.

(** After a settlement and four more requests, the same invoice with another
    proof is answered replay. *)
Lemma settle_again_run :
  (api_settle (env steady) kp (settle_request invoice0 bogus)
     (serve (env steady) kp
        [GetHealth; PostVerify (verify_request receipt0); PostSettle settle0;
         GetReceipts]
        (settled steady))).1
  = Ok (status_json 409 (BError "replay")).
Proof.
  pose proof (settle_again_rejected (env steady) kp steady_monotone steady_after_epoch
                invoice0 proof0 bogus initial receipt0
                [GetHealth; PostVerify (verify_request receipt0); PostSettle settle0;
                 GetReceipts]) as H.
  cbv zeta in H. destruct H as (_ & _ & H & _).
  - vm_compute. reflexivity.
  - apply H. vm_compute. discriminate.
Defined.

(** The receipt of [invoice0] verifies in the world its settlement left. *)
Lemma receipt_round_trip_run :
  ∃ flag, (api_verify (env steady) (verify_request receipt0) (settled steady)).1
          = Ok (json (BVerified flag)).
Proof.
  apply (receipt_round_trip (env steady) kp settle0 initial (settled steady) receipt0
           (env_base64 _) (env_signature _)); vm_compute; reflexivity.
Defined.

(** The flag does not gate the answer: the receipt verifies with the flag
    set where its nonce is in the ledger, and cleared where it is not. *)
Example receipt_verifies_with_either_flag :
  (api_verify (env steady) (verify_request receipt0) (settled steady)).1
  = Ok (json (BVerified true))
  ∧ (api_verify (env steady) (verify_request receipt0) initial).1
    = Ok (json (BVerified false)).
Proof. vm_compute. by split. Qed.

(** The same receipt with another payer verifies as well. *)
Lemma payer_swap_run :
  ∃ flag, (api_verify (env steady)
             (verify_request (set_payer (Some mallory) receipt0)) (settled steady)).1
          = Ok (json (BVerified flag)).
Proof.
  destruct (receipt_signature_binding (env steady) kp settle0 initial (settled steady)
              receipt0 (env_base64 _) (env_signature _)) as (_ & H & _).
  - vm_compute. reflexivity.
  - apply H. vm_compute. reflexivity.
Defined.

(** C1 as stated fails: the receipt of [invoice0], payer Alice, still
    verifies with answer 200 ok after its payer is replaced by Mallory, and a
    gatewayPubkey replaced by text that decodes to two bytes is answered 500
    server-error; neither answer is bad-sig. *)
Lemma payer_not_bound :
  (api_settle (env steady) kp settle0 initial).1 = Ok (json (BReceipt receipt0))
  ∧ payer receipt0 = Some alice
  ∧ Some mallory ≠ payer receipt0
  ∧ (api_verify (env steady)
       (verify_request (set_payer (Some mallory) receipt0)) (settled steady)).1
    = Ok (json (BVerified true))
  ∧ "AA" ≠ gatewayPubkey receipt0
  ∧ (api_verify (env steady)
       (verify_request (set_gatewayPubkey "AA" receipt0)) (settled steady)).1
    = Ok (status_json 500 (BError "server-error")).
Proof. vm_compute. repeat split; discriminate. Qed.

(** C2 as stated fails, twice over.  [invoice0] (ts 1700000000, ttl 90)
    settles at second 1700000010; the identical request at second 1700000100
    is answered 400 expired, not 409 replay.  And when the clock passes from
    the last second of the window, 1700000090, to the next between the
    reading of [isFresh] and the reading of [seenNonce], the identical
    request is fresh, its nonce counts as unseen, and it is answered with a
    second receipt. *)
Lemma second_settle_not_replay :
  (api_settle (env jump) kp settle0 initial).1 = Ok (json (BReceipt receipt0))
  ∧ now_at (env jump) (settled jump) = 1700000100
  ∧ (api_settle (env jump) kp settle0 (settled jump)).1
    = Ok (status_json 400 (BError "expired"))
  ∧ (api_settle (env edge) kp settle0 initial).1 = Ok (json (BReceipt receipt0))
  ∧ now_at (env edge) (settled edge) = 1700000090
  ∧ now_at (env edge) (tick (settled edge)) = 1700000091
  ∧ (api_settle (env edge) kp settle0 (settled edge)).1 = Ok (json (BReceipt receipt0))
  ∧ length (receipts (api_settle (env edge) kp settle0 (settled edge)).2) = 2%nat.
Proof. vm_compute. repeat split. Qed.

(** The join is not injective across fields: a separator inside a field
    moves the boundary. *)
Example message_shared_by_two_receipts :
  messageFromReceipt
    {| feature := "a|b"; amount := "c"; unit_ := "SOL"; ttl := 90; nonce := "n";
       merkleId := "m"; payer := None; gatewayPubkey := ""; ts := 1; sig := None |}
  = messageFromReceipt
    {| feature := "a"; amount := "b|c"; unit_ := "SOL"; ttl := 90; nonce := "n";
       merkleId := "m"; payer := None; gatewayPubkey := ""; ts := 1; sig := None |}.
Proof. reflexivity. Qed.

End Runs.

(** * Further properties *)

(** ** storage.js *)

Section Storage.

Variable E : Externals.

Lemma rememberReceipt_take r w :
  (length (receipts w) ≤ 500)%nat →
  receipts (rememberReceipt r w).2 = take 500 (r :: receipts w).
Proof.
  intros Hlen. rewrite rememberReceipt_receipts.
  destruct (Z.ltb_spec 500 (Z.of_nat (length (r :: receipts w)))) as [Hgt|Hle].
  - rewrite removelast_firstn_len. f_equal. simpl in *. lia.
  - symmetry. apply take_ge. simpl in *. lia.
Qed.

Lemma take_app_take {A} (n : nat) (a b : list A) :
  take n (a ++ take n b) = take n (a ++ b).
Proof. rewrite !take_app, take_take. do 2 f_equal. lia. Qed.

(** X1. From an archive of at most 500 receipts, recording a list of
    receipts leaves exactly the first 500 of: the recorded receipts, latest
    first, followed by the old archive. *)
Theorem archive_is_latest_500 (w : World) (rs : list Receipt) :
  (length (receipts w) ≤ 500)%nat →
  receipts (remember_all rs w) = take 500 (rev rs ++ receipts w).
Proof.
  revert w. induction rs as [|r rs IH]; intros w Hlen.
  - cbn. symmetry. by apply take_ge.
  - change (remember_all (r :: rs) w) with (remember_all rs (rememberReceipt r w).2).
    rewrite IH by by apply rememberReceipt_bound.
    rewrite rememberReceipt_take by done. rewrite take_app_take.
    cbn [rev]. by rewrite <- app_assoc.
Qed.

(** X2. Right after [markNonce n e], [seenNonce n] is true exactly when [e]
    is not 0 and not below the current second; the answer for every other
    nonce is what it was; a second [markNonce] of the same nonce replaces the
    expiry, as if the first had not happened; the archive is untouched. *)
Theorem mark_then_seen (n : string) (e : Z) (w : World) :
  (seenNonce E n (markNonce n e w).2).1 = Ok (negb (e =? 0) && (e >=? now_at E w))
  ∧ (∀ n', n' ≠ n →
       (seenNonce E n' (markNonce n e w).2).1 = (seenNonce E n' w).1)
  ∧ (∀ e', usedNonces (markNonce n e' (markNonce n e w).2).2
           = usedNonces (markNonce n e' w).2)
  ∧ receipts (markNonce n e w).2 = receipts w.
Proof.
  split; [|split; [|split]].
  - rewrite seenNonce_run. cbn [markNonce modify snd].
    change (usedNonces (set_usedNonces ?m ?v)) with m.
    rewrite lookup_insert_eq. by destruct (e =? 0).
  - intros n' Hne. rewrite !seenNonce_run. cbn [markNonce modify snd].
    change (usedNonces (set_usedNonces ?m ?v)) with m.
    rewrite lookup_insert_ne by done.
    destruct (usedNonces w !! n') as [x|]; [|done]. by destruct (x =? 0).
  - intros e'. cbn [markNonce modify snd].
    change (usedNonces (set_usedNonces ?m ?v)) with m. apply insert_insert_eq.
  - reflexivity.
Qed.

(** X3. [cleanupNonces] leaves only entries whose expiry is at or after the
    second it read, never adds or alters an entry, and leaves the archive
    alone; run again while the clock has not gone back it leaves what one
    run at the later second leaves, and run again in the same second it
    changes nothing. *)
Theorem cleanup_reclaims (w : World) :
  let w1 := (cleanupNonces E w).2 in
  (∀ k e, usedNonces w1 !! k = Some e → now_at E w ≤ e)
  ∧ usedNonces w1 ⊆ usedNonces w
  ∧ (size (usedNonces w1) ≤ size (usedNonces w))%nat
  ∧ receipts w1 = receipts w
  ∧ (now_at E w ≤ now_at E w1 →
     usedNonces (cleanupNonces E w1).2
     = filter (fun kv => ¬ (kv.2 < now_at E w1)) (usedNonces w))
  ∧ (now_at E w1 = now_at E w →
     usedNonces (cleanupNonces E w1).2 = usedNonces w1).
Proof.
  intros w1.
  assert (Hm : usedNonces w1
               = filter (fun kv => ¬ (kv.2 < now_at E w)) (usedNonces w)) by reflexivity.
  assert (Hm2 : usedNonces (cleanupNonces E w1).2
                = filter (fun kv => ¬ (kv.2 < now_at E w1)) (usedNonces w1))
    by reflexivity.
  split; [|split; [|split; [|split; [|split]]]].
  - intros k e. rewrite Hm, evicted_lookup. tauto.
  - rewrite Hm. apply map_filter_subseteq.
  - rewrite Hm. apply map_subseteq_size, map_filter_subseteq.
  - reflexivity.
  - intros Hle. rewrite Hm2, Hm. apply map_eq. intros k. apply option_eq. intros e.
    rewrite !evicted_lookup. intuition lia.
  - intros Heq. rewrite Hm2. apply map_eq. intros k. apply option_eq. intros e.
    rewrite evicted_lookup, Heq. split; [tauto|]. intros He. split; [done|].
    rewrite Hm in He. by apply evicted_lookup in He as [_ ?].
Qed.

End Storage.

(** ** What every handler keeps *)

Section Handlers.

Variable E : Externals.
Variable kp : KeyPair.

Section Stable.

Variable R : World → World → Prop.
Hypothesis R_refl : ∀ w, R w w.
Hypothesis R_trans : ∀ w1 w2 w3, R w1 w2 → R w2 w3 → R w1 w3.
Hypothesis R_tick : ∀ w, R w (tick w).
Hypothesis R_draw : ∀ w, R w (draw w).
Hypothesis R_log : ∀ c w, R w (log c w).

Lemma stable_ret {A} (a : A) : stable R (ret a).
Proof. intros w. apply R_refl. Qed.

Lemma stable_throw {A} (e : exn) : stable R (@throw A e).
Proof. intros w. apply R_refl. Qed.

Lemma stable_lift {A} (r : result A) : stable R (lift r).
Proof. intros w. apply R_refl. Qed.

Lemma stable_gets {A} (f : World → A) : stable R (gets f).
Proof. intros w. apply R_refl. Qed.

Lemma stable_extern {A} (c : Call) (r : result A) : stable R (extern c r).
Proof. intros w. apply R_log. Qed.

Lemma stable_bind {A B} (m : M A) (k : A → M B) :
  stable R m → (∀ a, stable R (k a)) → stable R (bind m k).
Proof.
  intros Hm Hk w. unfold bind. specialize (Hm w).
  destruct (m w) as [[a|e] w']; [|exact Hm].
  eapply R_trans; [exact Hm|apply Hk].
Qed.

Lemma stable_try_catch {A} (m : M A) (h : exn → M A) :
  stable R m → (∀ e, stable R (h e)) → stable R (try_catch m h).
Proof.
  intros Hm Hh w. unfold try_catch. specialize (Hm w).
  destruct (m w) as [[a|e] w']; [exact Hm|].
  eapply R_trans; [exact Hm|apply Hh].
Qed.

Lemma stable_floor_now : stable R (floor_now E).
Proof. intros w. apply R_tick. Qed.

Lemma stable_seenNonce n : stable R (seenNonce E n).
Proof.
  apply stable_bind; [apply stable_gets|]. intros [e|]; [|apply stable_ret].
  destruct (e =? 0); [apply stable_ret|].
  apply stable_bind; [apply stable_floor_now|intros; apply stable_ret].
Qed.

Lemma stable_makeNonce : stable R (makeNonce E).
Proof. intros w. apply R_draw. Qed.

Lemma stable_randHex32 : stable R (randHex32 E).
Proof. intros w. apply R_draw. Qed.

Ltac stable_step :=
  first
    [ apply stable_ret | apply stable_throw | apply stable_lift | apply stable_gets
    | apply stable_extern | apply stable_floor_now | apply stable_seenNonce
    | apply stable_makeNonce | apply stable_randHex32
    | apply stable_bind; [|intros ?] | apply stable_try_catch; [|intros ?]
    | match goal with |- stable R (if ?b then _ else _) => destruct b end
    | match goal with |- stable R (match ?x with _ => _ end) => destruct x end ].

Lemma stable_verifyWalletProof msg p : stable R (verifyWalletProof E msg p).
Proof.
  unfold verifyWalletProof, verifySolanaMessage, verifyEvmMessage, same_address.
  repeat stable_step.
Qed.

Lemma stable_api_health : stable R (api_health E).
Proof. unfold api_health, nowSec. repeat stable_step. Qed.

Lemma stable_api_gateway : stable R (api_gateway E kp).
Proof. unfold api_gateway. repeat stable_step. Qed.

Lemma stable_api_invoice b : stable R (api_invoice E kp b).
Proof. unfold api_invoice, nowSec. repeat stable_step. Qed.

Lemma stable_api_receipts : stable R api_receipts.
Proof. unfold api_receipts. repeat stable_step. Qed.

Lemma stable_api_verify b : stable R (api_verify E b).
Proof. unfold api_verify, isFresh, nowSec, verifyGateway. repeat stable_step. Qed.

Lemma stable_api_translate h : stable R (api_translate E h).
Proof. unfold api_translate, isFresh, nowSec, verifyGateway. repeat stable_step. Qed.

End Stable.

Lemma state_kept_refl w : state_kept w w.
Proof. repeat split. lia. Qed.

Lemma state_kept_trans w1 w2 w3 :
  state_kept w1 w2 → state_kept w2 w3 → state_kept w1 w3.
Proof. intros (A1 & B1 & C1) (A2 & B2 & C2). repeat split; [congruence..|lia]. Qed.

Lemma state_kept_tick w : state_kept w (tick w).
Proof. repeat split. simpl. lia. Qed.

Lemma state_kept_draw w : state_kept w (draw w).
Proof. repeat split. simpl. lia. Qed.

Lemma state_kept_log c w : state_kept w (log c w).
Proof. repeat split. simpl. lia. Qed.

(** [/api/settle] answers an error or a receipt, nothing else. *)
Lemma api_settle_answer rq w :
  (∃ st err, (api_settle E kp rq w).1 = Ok (status_json st (BError err)))
  ∨ (∃ r, (api_settle E kp rq w).1 = Ok (json (BReceipt r))).
Proof.
  destruct (rq ≫= invoice) as [inv|] eqn:Hi;
    [destruct (rq ≫= walletProof) as [p|] eqn:Hp|];
    [|left; rewrite api_settle_missing by (by right); by eexists _, _
     |left; rewrite api_settle_missing by (by left); by eexists _, _].
  rewrite (settle_request_eta _ _ _ Hi Hp), api_settle_run. cbn zeta.
  destruct (fresh_at E (inv_ts inv) (inv_ttl inv) w); cbn [negb];
    [|left; by eexists _, _].
  destruct (seen_at E (inv_nonce inv) (tick w)); [left; by eexists _, _|].
  destruct (verdict (verifyWalletProof E (messageFromInvoice inv) p)); cbn [negb];
    [right; by eexists|left; by eexists _, _].
Qed.

Lemma api_settle_reads rq w :
  (clock_reads w ≤ clock_reads (api_settle E kp rq w).2)%nat.
Proof.
  destruct (api_settle_answer rq w) as [(st & err & H)|(r & H)].
  - by destruct (api_settle_error_world E kp rq w st err H) as (_ & _ & ?).
  - destruct (api_settle_receipt_is E kp rq w r H) as (inv & p & -> & _).
    destruct (api_settle_receipt E kp inv p w r H) as (_ & _ & _ & ->).
    destruct (verified_in_kept E inv p w) as [_ ?]. lia.
Qed.

Lemma handle_reads rq w : (clock_reads w ≤ clock_reads (handle E kp rq w).2)%nat.
Proof.
  destruct rq; cbn [handle]; try apply api_settle_reads.
  - apply (keeps_api_health E w).
  - apply (keeps_api_gateway E kp w).
  - apply (keeps_api_invoice E kp req_body w).
  - apply (keeps_api_receipts w).
  - apply (keeps_api_verify E req_body w).
  - apply (keeps_api_translate E hdr w).
Qed.

Lemma serve_reads rqs : ∀ w, (clock_reads w ≤ clock_reads (serve E kp rqs w))%nat.
Proof.
  induction rqs as [|rq rqs IH]; intros w; [cbn; lia|].
  cbn [serve]. etransitivity; [apply (handle_reads rq w)|apply IH].
Qed.

(** A request either is a settlement answered with a receipt or leaves the
    archive as it was. *)
Lemma handle_receipt_or_same_archive (rq : Request) (w : World) :
  (∃ b r, rq = PostSettle b ∧ (handle E kp rq w).1 = Ok (json (BReceipt r)))
  ∨ receipts (handle E kp rq w).2 = receipts w.
Proof.
  set (R := fun v v' : World => receipts v' = receipts v).
  assert (Hrefl : ∀ v, R v v) by done.
  assert (Htrans : ∀ v1 v2 v3, R v1 v2 → R v2 v3 → R v1 v3)
    by (unfold R; congruence).
  assert (Htick : ∀ v, R v (tick v)) by done.
  assert (Hdraw : ∀ v, R v (draw v)) by done.
  assert (Hlog : ∀ c v, R v (log c v)) by done.
  destruct rq as [| |b|b| |b|h]; cbn [handle].
  - right. by apply (stable_api_health R).
  - right. by apply (stable_api_gateway R).
  - right. by apply (stable_api_invoice R).
  - destruct (api_settle_answer b w) as [(st & err & H)|(r & H)].
    + right. by destruct (api_settle_error_world E kp b w st err H) as (_ & ? & _).
    + left. by exists b, r.
  - right. by apply (stable_api_receipts R).
  - right. by apply (stable_api_verify R).
  - right. by apply (stable_api_translate R).
Qed.

Ltac kept :=
  first [ exact state_kept_refl | exact state_kept_trans | exact state_kept_tick
        | exact state_kept_draw | exact state_kept_log ].

(** X4. Only a settle request that is answered with a receipt writes: every
    other request, to any route and with any answer, leaves the nonce ledger
    and the receipt archive as they were. *)
Theorem only_settlement_writes (rq : Request) (w : World) :
  (∃ b r, rq = PostSettle b ∧ (handle E kp rq w).1 = Ok (json (BReceipt r)))
  ∨ state_kept w (handle E kp rq w).2.
Proof.
  destruct rq as [| |b|b| |b|h]; cbn [handle].
  - right. apply stable_api_health; kept.
  - right. apply stable_api_gateway; kept.
  - right. apply stable_api_invoice; kept.
  - destruct (api_settle_answer b w) as [(st & err & H)|(r & H)].
    + right. by apply (api_settle_error_world E kp b w st err).
    + left. by exists b, r.
  - right. apply stable_api_receipts; kept.
  - right. apply stable_api_verify; kept.
  - right. apply stable_api_translate; kept.
Qed.

(** X6. Once a settle request for an invoice has been answered expired,
    every later settle request for that invoice, with any wallet proof and
    after any other requests, is answered expired too, provided the clock
    does not run backwards. *)
Theorem expired_stays_expired (inv : Invoice) (p p' : WalletProof) (w : World)
    (rqs : list Request) :
  clock_monotone E →
  (api_settle E kp (settle_request inv p) w).1 = Ok (status_json 400 (BError "expired")) →
  (api_settle E kp (settle_request inv p')
     (serve E kp rqs (api_settle E kp (settle_request inv p) w).2)).1
  = Ok (status_json 400 (BError "expired")).
Proof.
  intros Hmono Hfirst.
  assert (Hstale : fresh_at E (inv_ts inv) (inv_ttl inv) w = false).
  { revert Hfirst. rewrite api_settle_run. cbn zeta.
    destruct (fresh_at E (inv_ts inv) (inv_ttl inv) w); cbn [negb]; [|done].
    destruct (seen_at E (inv_nonce inv) (tick w)); [discriminate|].
    destruct (verdict (verifyWalletProof E (messageFromInvoice inv) p));
      cbn [negb]; discriminate. }
  set (w' := serve E kp rqs (api_settle E kp (settle_request inv p) w).2).
  assert (Hlater : now_at E w ≤ now_at E w').
  { apply (now_at_mono E Hmono). etransitivity; [apply api_settle_reads|apply serve_reads]. }
  rewrite api_settle_run.
  replace (fresh_at E (inv_ts inv) (inv_ttl inv) w') with false; [reflexivity|].
  symmetry. apply Z.leb_gt. apply Z.leb_gt in Hstale. lia.
Qed.

End Handlers.

(** ** Issuing invoices *)

Section Issuing.

Variable E : Externals.
Variable kp : KeyPair.

Lemma strip_dashes_filter (s : string) :
  list_ascii_of_string (strip_dashes s)
  = filter (fun c => c ≠ "-"%char) (list_ascii_of_string s).
Proof.
  induction s as [|c s IH]; [reflexivity|]. cbn [strip_dashes list_ascii_of_string].
  destruct (Ascii.eqb_spec c "-"%char) as [->|Hne].
  - rewrite filter_cons_False by (intros H; by apply H). exact IH.
  - rewrite filter_cons_True by done. cbn [list_ascii_of_string]. by rewrite IH.
Qed.

Lemma strip_dashes_no_dash (s : string) : no_dash (strip_dashes s).
Proof.
  unfold no_dash. rewrite strip_dashes_filter. intros Hin.
  apply list_elem_of_filter in Hin as [Hne _]. by apply Hne.
Qed.

(** X7. [/api/invoice] answers 200 with an invoice, the canonical message of
    that very invoice as messageToSign, and the gateway's public key.  The
    invoice's ts is the current clock second; its nonce is the UUID drawn,
    less its dashes and otherwise character for character, so it holds no
    dash; its merkleId comes from the next draw; every parameter the body
    leaves out takes its default (api.translate, 0.01, SOL, 90, phantom),
    and a ttl given is taken as it is, whatever its sign. *)
Theorem invoice_issued (body : option InvoiceParams) (w : World) :
  ∃ inv,
    (api_invoice E kp body w).1
    = Ok (json (BInvoice inv (messageFromInvoice inv) (gatewayPubB64 E kp)))
    ∧ inv_ts inv = now_at E w
    ∧ list_ascii_of_string (inv_nonce inv)
      = filter (fun c => c ≠ "-"%char)
               (list_ascii_of_string (crypto_randomUUID E (draws w)))
    ∧ no_dash (inv_nonce inv)
    ∧ inv_merkleId inv = crypto_randomBytes32_hex E (S (draws w))
    ∧ inv_feature inv = default "api.translate" (body ≫= p_feature)
    ∧ inv_amount inv = default "0.01" (body ≫= p_amount)
    ∧ inv_unit inv = default "SOL" (body ≫= p_unit)
    ∧ inv_ttl inv = default 90 (body ≫= p_ttlSec)
    ∧ inv_wallet inv = default "phantom" (body ≫= p_wallet).
Proof.
  eexists. split; [reflexivity|]. cbn [inv_ts inv_nonce inv_merkleId inv_feature
    inv_amount inv_unit inv_ttl inv_wallet].
  split; [reflexivity|]. split; [apply strip_dashes_filter|].
  split; [apply strip_dashes_no_dash|]. split; [reflexivity|].
  destruct body as [[f a u t wl]|]; cbn; repeat split;
    try (by destruct f); try (by destruct a); try (by destruct u);
    try (by destruct t); try (by destruct wl).
Qed.

Lemma invoice_issued_ts body w inv msg pk :
  (api_invoice E kp body w).1 = Ok (json (BInvoice inv msg pk)) →
  inv_ts inv = now_at E w.
Proof. intros [= <- _ _]. reflexivity. Qed.

(** X8. An invoice issued with a negative ttl can never be settled: every
    settle request for it, at any later moment and with any wallet proof, is
    answered expired, provided the clock does not run backwards. *)
Theorem negative_ttl_never_settles (body : option InvoiceParams) (w : World)
    (inv : Invoice) (msg pk : string) (rqs : list Request) (p : WalletProof) :
  clock_monotone E →
  (api_invoice E kp body w).1 = Ok (json (BInvoice inv msg pk)) →
  inv_ttl inv < 0 →
  (api_settle E kp (settle_request inv p) (serve E kp rqs (api_invoice E kp body w).2)).1
  = Ok (status_json 400 (BError "expired")).
Proof.
  intros Hmono Hissued Hneg.
  assert (Hts : inv_ts inv = now_at E w).
  { destruct (invoice_issued_ts body w inv msg pk Hissued). reflexivity. }
  set (w' := serve E kp rqs (api_invoice E kp body w).2).
  assert (Hlater : now_at E w ≤ now_at E w').
  { apply (now_at_mono E Hmono). etransitivity; [|apply serve_reads].
    apply (keeps_api_invoice E kp body w). }
  rewrite api_settle_run.
  replace (fresh_at E (inv_ts inv) (inv_ttl inv) w') with false; [reflexivity|].
  symmetry. apply Z.leb_gt. lia.
Qed.

End Issuing.

(** ** Verifying receipts and guarding the resource *)

Section Guard.

Variable E : Externals.
Variable kp : KeyPair.

(** X9. [/api/verify] without a receipt answers 400 missing-receipt and
    touches nothing, not even the clock.  A stale receipt is answered
    expired, with status 200, before any signature-library call.  For a fresh
    receipt, a gatewayPubkey or a sig that [Buffer.from] rejects (a missing
    sig included), and a verification that throws (tweetnacl does on a key or
    signature of the wrong size), are answered 500 server-error, not
    bad-sig. *)
Theorem verify_rejections (r : Receipt) (w : World) :
  (∀ body, body ≫= receipt = None →
     api_verify E body w = (Ok (status_json 400 (BError "missing-receipt")), w))
  ∧ (fresh_at E (ts r) (ttl r) w = false →
     (api_verify E (verify_request r) w).1 = Ok (json (BError "expired"))
     ∧ calls (api_verify E (verify_request r) w).2 = calls w)
  ∧ (fresh_at E (ts r) (ttl r) w = true →
     (∀ e, Buffer_from_base64 E (Some (gatewayPubkey r)) = Throw e →
        (api_verify E (verify_request r) w).1
        = Ok (status_json 500 (BError "server-error")))
     ∧ (∀ e, fromB64 E (sig r) = Throw e →
        (api_verify E (verify_request r) w).1
        = Ok (status_json 500 (BError "server-error")))
     ∧ (∀ pk sg e,
        Buffer_from_base64 E (Some (gatewayPubkey r)) = Ok pk →
        fromB64 E (sig r) = Ok sg →
        nacl_sign_detached_verify E (enc (messageFromReceipt r)) sg pk = Throw e →
        (api_verify E (verify_request r) w).1
        = Ok (status_json 500 (BError "server-error")))).
Proof.
  split; [|split].
  - intros body Hnone. unfold api_verify, try_catch. by rewrite Hnone.
  - intros Hstale. rewrite api_verify_run, Hstale. by split.
  - intros Hfresh. rewrite api_verify_run, Hfresh. cbn [negb].
    split; [|split].
    + intros e ->. reflexivity.
    + intros e ->. by destruct (Buffer_from_base64 E (Some (gatewayPubkey r))).
    + intros pk sg e -> -> Hv. cbn zeta. by rewrite Hv.
Qed.

(** X10. A receipt that [/api/settle] returned for an invoice of the data
    model (its nonce text) is reported replay-protected for as long as its
    window is open: after any further requests, [/api/verify] answers it
    200 ok with the flag set, if the clock has not passed ts + ttl when
    [seenNonce] reads it.  Base64 round trip, the
    gateway's signatures verifying, and a clock past the epoch that does not
    run backwards are assumed. *)
Theorem settled_receipt_replay_protected (rq : option SettleBody) (w : World)
    (r : Receipt) (rqs : list Request) :
  clock_monotone E → clock_after_epoch E →
  base64_round_trip E → gateway_signature_verifies E kp →
  (api_settle E kp rq w).1 = Ok (json (BReceipt r)) →
  let w' := serve E kp rqs (api_settle E kp rq w).2 in
  now_at E (tick w') ≤ ts r + ttl r →
  (api_verify E (verify_request r) w').1 = Ok (json (BVerified true)).
Proof.
  intros Hmono Hepoch Hb64 Hsig Hsettle w' Hopen.
  destruct (api_settle_receipt_is E kp rq w r Hsettle) as (inv & p & Hrq & Hr).
  subst rq. rewrite Hr in *.
  change (ts (signed_receipt E kp inv p)) with (inv_ts inv) in *.
  change (ttl (signed_receipt E kp inv p)) with (inv_ttl inv) in *.
  assert (Hnow : now_at E w' ≤ inv_ts inv + inv_ttl inv).
  { etransitivity; [apply (now_at_mono E Hmono w' (tick w'))|exact Hopen]. simpl. lia. }
  assert (Hfresh : fresh_at E (ts (signed_receipt E kp inv p))
                     (ttl (signed_receipt E kp inv p)) w' = true).
  { apply Z.leb_le. change (now_at E w' - inv_ts inv ≤ inv_ttl inv). lia. }
  assert (Hheld : usedNonces w' !! inv_nonce inv = Some (inv_ts inv + inv_ttl inv)).
  { apply (holds_nonce_serve E kp Hmono Hepoch); [|exact Hnow].
    rewrite <- Hr in Hsettle. rewrite Hr in Hsettle.
    by apply (holds_nonce_settled E kp Hmono inv p w (signed_receipt E kp inv p)). }
  destruct (signed_receipt_accepted E kp inv p w' Hb64 Hsig Hfresh)
    as (Hs & Hk & Hv & _).
  rewrite api_verify_run, Hfresh, Hk, Hs. cbn [negb]. cbn zeta. rewrite Hv.
  cbn [fst]. do 3 f_equal.
  apply (held_nonce_seen E Hepoch _ (inv_ts inv + inv_ttl inv)); [exact Hheld|exact Hopen].
Qed.

Lemma bind_throw {A B} (m : M A) (k : A → M B) w e w' :
  m w = (Throw e, w') → bind m k w = (Throw e, w').
Proof. intros H. unfold bind. by rewrite H. Qed.

Lemma lift_run {A} (x y : result A) w : x = y → lift x w = (y, w).
Proof. by intros ->. Qed.

(** [/api/translate] on a header that parses, check by check. *)
Lemma api_translate_run h r w :
  String.eqb h "" = false →
  JSON_parse E h = Ok r →
  api_translate E (Some h) w =
    if negb (fresh_at E (ts r) (ttl r) w)
    then (Ok (status_json 402 (BError "expired")), tick w)
    else
      match Buffer_from_base64 E (Some (gatewayPubkey r)), fromB64 E (sig r) with
      | Throw _, _ | Ok _, Throw _ =>
          (Ok (status_json 400 (BError "bad-receipt-json")), tick w)
      | Ok pk, Ok sg =>
          let w1 := log (Call_nacl_verify (enc (messageFromReceipt r)) sg pk) (tick w) in
          match nacl_sign_detached_verify E (enc (messageFromReceipt r)) sg pk with
          | Throw _ => (Ok (status_json 400 (BError "bad-receipt-json")), w1)
          | Ok false => (Ok (status_json 401 (BError "bad-sig")), w1)
          | Ok true =>
              if String.eqb (feature r) "api.translate"
              then (Ok (json (BData "Hello â†’ Halo")), w1)
              else (Ok (status_json 403 (BError "wrong-feature")), w1)
          end
      end.
Proof.
  intros Hh Hparse. unfold api_translate. rewrite Hh. unfold try_catch.
  unfold lift at 1. unfold bind at 1. rewrite Hparse.
  rewrite (bind_ok _ _ _ _ _ (isFresh_run E _ _ _)).
  destruct (fresh_at E (ts r) (ttl r) w); cbn [negb]; [|reflexivity].
  unfold verifyGateway, lift, extern, bind.
  destruct (Buffer_from_base64 E (Some (gatewayPubkey r))) as [pk|e]; [|reflexivity].
  destruct (fromB64 E (sig r)) as [sg|e]; [|reflexivity].
  destruct (nacl_sign_detached_verify E (enc (messageFromReceipt r)) sg pk)
    as [[|]|e]; cbn [negb]; try reflexivity.
  by destruct (String.eqb (feature r) "api.translate").
Qed.

(** X11. The resource guard honours a settled receipt: for a receipt that
    [/api/settle] returned and a header that parses to it, [/api/translate]
    answers, in every world in which the receipt is fresh, 200 with the data
    if the receipt's feature is api.translate, and 403 wrong-feature if it is
    anything else.  Base64 round trip and the gateway's signatures verifying
    are assumed. *)
Theorem translate_honours_receipt (rq : option SettleBody) (w w' : World)
    (r : Receipt) (h : string) :
  base64_round_trip E → gateway_signature_verifies E kp →
  (api_settle E kp rq w).1 = Ok (json (BReceipt r)) →
  h ≠ "" → JSON_parse E h = Ok r →
  fresh_at E (ts r) (ttl r) w' = true →
  (feature r = "api.translate" →
     (api_translate E (Some h) w').1 = Ok (json (BData "Hello â†’ Halo")))
  ∧ (feature r ≠ "api.translate" →
     (api_translate E (Some h) w').1 = Ok (status_json 403 (BError "wrong-feature"))).
Proof.
  intros Hb64 Hsig Hsettle Hh Hparse Hfresh.
  destruct (api_settle_receipt_is E kp rq w r Hsettle) as (inv & p & _ & Hr).
  rewrite Hr in *.
  destruct (signed_receipt_accepted E kp inv p w' Hb64 Hsig Hfresh)
    as (Hs & Hk & Hv & _).
  apply String.eqb_neq in Hh.
  rewrite (api_translate_run h _ w' Hh Hparse), Hfresh, Hk, Hs. cbn [negb]. cbn zeta.
  rewrite Hv. split.
  - intros Hf. by rewrite Hf.
  - intros Hf. apply String.eqb_neq in Hf. by rewrite Hf.
Qed.

(** X12. The resource guard never looks at the nonce ledger or the archive:
    its answer to a header is the same whatever the two hold, so a receipt
    already used, or never recorded, is answered like any other. *)
Theorem translate_ignores_state (hdr : option string) (w : World)
    (m : gmap string Z) (rs : list Receipt) :
  (api_translate E hdr (set_usedNonces m (set_receipts rs w))).1
  = (api_translate E hdr w).1.
Proof.
  destruct hdr as [h|]; [|reflexivity].
  destruct (String.eqb h "") eqn:Hh; [unfold api_translate; by rewrite Hh|].
  destruct (JSON_parse E h) as [r|e] eqn:Hparse.
  - rewrite !(api_translate_run h r _ Hh Hparse).
    change (fresh_at E (ts r) (ttl r) (set_usedNonces m (set_receipts rs w)))
      with (fresh_at E (ts r) (ttl r) w).
    destruct (fresh_at E (ts r) (ttl r) w); cbn [negb]; [|reflexivity].
    destruct (Buffer_from_base64 E (Some (gatewayPubkey r))) as [pk|e]; [|reflexivity].
    destruct (fromB64 E (sig r)) as [sg|e]; [|reflexivity]. cbn zeta.
    destruct (nacl_sign_detached_verify E (enc (messageFromReceipt r)) sg pk)
      as [[|]|e]; try reflexivity.
    by destruct (String.eqb (feature r) "api.translate").
  - unfold api_translate. rewrite Hh. unfold try_catch.
    rewrite !(bind_throw _ _ _ e _ (lift_run _ _ _ Hparse)). reflexivity.
Qed.

(** X13. What the resource guard refuses: an absent or empty header is
    answered 402 missing-x402-receipt with nothing touched; a header that
    does not parse, a gatewayPubkey or sig that [Buffer.from] rejects and a
    verification that throws are all answered 400 bad-receipt-json; a stale
    receipt is answered 402 expired before any signature-library call; a
    fresh receipt whose signature tweetnacl rejects is answered 401
    bad-sig, whatever its feature. *)
Theorem translate_rejections (h : string) (w : World) :
  api_translate E None w = (Ok (status_json 402 (BError "missing-x402-receipt")), w)
  ∧ api_translate E (Some "") w
    = (Ok (status_json 402 (BError "missing-x402-receipt")), w)
  ∧ (h ≠ "" →
     (∀ e, JSON_parse E h = Throw e →
        (api_translate E (Some h) w).1 = Ok (status_json 400 (BError "bad-receipt-json")))
     ∧ (∀ r, JSON_parse E h = Ok r →
        (fresh_at E (ts r) (ttl r) w = false →
           (api_translate E (Some h) w).1 = Ok (status_json 402 (BError "expired"))
           ∧ calls (api_translate E (Some h) w).2 = calls w)
        ∧ (fresh_at E (ts r) (ttl r) w = true →
           (∀ e, Buffer_from_base64 E (Some (gatewayPubkey r)) = Throw e →
              (api_translate E (Some h) w).1
              = Ok (status_json 400 (BError "bad-receipt-json")))
           ∧ (∀ e, fromB64 E (sig r) = Throw e →
              (api_translate E (Some h) w).1
              = Ok (status_json 400 (BError "bad-receipt-json")))
           ∧ (∀ pk sg,
              Buffer_from_base64 E (Some (gatewayPubkey r)) = Ok pk →
              fromB64 E (sig r) = Ok sg →
              (∀ e, nacl_sign_detached_verify E (enc (messageFromReceipt r)) sg pk
                    = Throw e →
                 (api_translate E (Some h) w).1
                 = Ok (status_json 400 (BError "bad-receipt-json")))
              ∧ (nacl_sign_detached_verify E (enc (messageFromReceipt r)) sg pk
                 = Ok false →
                 (api_translate E (Some h) w).1
                 = Ok (status_json 401 (BError "bad-sig"))))))).
Proof.
  split; [reflexivity|]. split; [reflexivity|].
  intros Hh. apply String.eqb_neq in Hh. split.
  - intros e He. unfold api_translate. rewrite Hh.
    unfold try_catch, lift. unfold bind at 1. by rewrite He.
  - intros r Hparse. rewrite (api_translate_run h r w Hh Hparse). split.
    + intros ->. by split.
    + intros ->. cbn [negb]. split; [|split].
      * intros e ->. reflexivity.
      * intros e ->. by destruct (Buffer_from_base64 E (Some (gatewayPubkey r))).
      * intros pk sg -> ->. cbn zeta. split; [intros e ->|intros ->]; reflexivity.
Qed.

End Guard.

(** ** The verifiers, case by case *)

Section Verdicts.

Variable E : Externals.
Variable kp : KeyPair.

(** X14. The Ed25519 verifier answers [true] exactly when the account
    decodes as base58, the signature decodes, and tweetnacl accepts the
    decoded signature for the UTF-8 bytes of the message under the decoded
    key. *)
Theorem solana_accepts_iff (message : string) (sg account : option string) (w : World) :
  (verifySolanaMessage E message sg account w).1 = Ok true
  ↔ ∃ pub sgb,
      bs58_decode E account = Ok pub
      ∧ Buffer_from_base64 E sg = Ok sgb
      ∧ nacl_sign_detached_verify E (enc message) sgb pub = Ok true.
Proof.
  unfold verifySolanaMessage, try_catch, bind, extern, lift, ret.
  destruct (bs58_decode E account) as [pub|e]; cbn [fst].
  - destruct (Buffer_from_base64 E sg) as [sgb|e]; cbn [fst].
    + destruct (nacl_sign_detached_verify E (enc message) sgb pub) as [[|]|e] eqn:Hv;
        cbn [fst].
      * split; [intros _; by exists pub, sgb|done].
      * split; [discriminate|]. intros (pub' & sgb' & [= <-] & [= <-] & H).
        rewrite Hv in H. discriminate.
      * split; [discriminate|]. intros (pub' & sgb' & [= <-] & [= <-] & H).
        rewrite Hv in H. discriminate.
    + split; [discriminate|]. intros (pub' & sgb' & _ & H & _). discriminate.
  - split; [discriminate|]. intros (pub' & sgb' & H & _). discriminate.
Qed.

(** X15. The recoverable verifier answers [true] exactly when the account is
    present and, compared in lower case, equals the address recovered from
    the message as text, or the address recovered from the message read as
    raw bytes: the second recovery also counts when the first gives another
    address or throws.  When the first recovery matches, nothing else is
    called. *)
Theorem evm_accepts_iff (message : string) (sg account : option string) (w : World) :
  ((verifyEvmMessage E message sg account w).1 = Ok true
   ↔ ∃ a, account = Some a
          ∧ ((∃ recovered, ethers_verifyMessage E (inl message) sg = Ok recovered
                           ∧ toLowerCase E recovered = toLowerCase E a)
             ∨ (∃ raw recovered,
                  ethers_getBytes E message = Ok raw
                  ∧ ethers_verifyMessage E (inr raw) sg = Ok recovered
                  ∧ toLowerCase E recovered = toLowerCase E a)))
  ∧ (∀ a recovered,
       account = Some a →
       ethers_verifyMessage E (inl message) sg = Ok recovered →
       toLowerCase E recovered = toLowerCase E a →
       calls (verifyEvmMessage E message sg account w).2
       = (calls w ++ [Call_ethers_verifyMessage (inl message) sg])%list).
Proof.
  split.
  - unfold verifyEvmMessage, same_address, try_catch, bind, extern, throw, ret.
    destruct account as [a|].
    + destruct (ethers_verifyMessage E (inl message) sg) as [rec1|e1] eqn:H1.
      * destruct (String.eqb_spec (toLowerCase E rec1) (toLowerCase E a)) as [Heq|Hne].
        { cbn [fst]. split; [|done]. intros _. exists a. split; [done|].
          left. by exists rec1. }
        destruct (ethers_getBytes E message) as [raw|e] eqn:Hraw; cbn [fst].
        -- destruct (ethers_verifyMessage E (inr raw) sg) as [rec2|e2] eqn:H2; cbn [fst].
           ++ destruct (String.eqb_spec (toLowerCase E rec2) (toLowerCase E a))
                as [Heq2|Hne2]; cbn [fst].
              ** split; [|done]. intros _. exists a. split; [done|].
                 right. by exists raw, rec2.
              ** split; [discriminate|].
                 intros (a' & [= <-] & [(r1 & [= <-] & ?)|(rw & r2 & [= <-] & Hr & ?)]);
                   [done|]. rewrite H2 in Hr. injection Hr as <-. done.
           ++ split; [discriminate|].
              intros (a' & [= <-] & [(r1 & [= <-] & ?)|(rw & r2 & [= <-] & Hr & ?)]);
                [done|]. rewrite H2 in Hr. discriminate.
        -- split; [discriminate|].
           intros (a' & [= <-] & [(r1 & [= <-] & ?)|(rw & r2 & Hr & _)]);
             [done|discriminate].
      * destruct (ethers_getBytes E message) as [raw|e] eqn:Hraw; cbn [fst].
        -- destruct (ethers_verifyMessage E (inr raw) sg) as [rec2|e2] eqn:H2; cbn [fst].
           ++ destruct (String.eqb_spec (toLowerCase E rec2) (toLowerCase E a))
                as [Heq2|Hne2]; cbn [fst].
              ** split; [|done]. intros _. exists a. split; [done|].
                 right. by exists raw, rec2.
              ** split; [discriminate|].
                 intros (a' & [= <-] & [(r1 & Hr & ?)|(rw & r2 & [= <-] & Hr & ?)]);
                   [discriminate|]. rewrite H2 in Hr. injection Hr as <-. done.
           ++ split; [discriminate|].
              intros (a' & [= <-] & [(r1 & Hr & ?)|(rw & r2 & [= <-] & Hr & ?)]);
                [discriminate|]. rewrite H2 in Hr. discriminate.
        -- split; [discriminate|].
           intros (a' & [= <-] & [(r1 & Hr & ?)|(rw & r2 & Hr & _)]); discriminate.
    + split; [|intros (a & H & _); discriminate].
      intros Htrue. exfalso.
      destruct (ethers_verifyMessage E (inl message) sg);
        (destruct (ethers_getBytes E message) as [raw|]; [|discriminate]);
        destruct (ethers_verifyMessage E (inr raw) sg); discriminate.
  - intros a recovered -> H1 Heq.
    unfold verifyEvmMessage, same_address, try_catch, bind, extern, ret.
    rewrite H1, Heq, String.eqb_refl. reflexivity.
Qed.

End Verdicts.

(** ** The gateway's key pair and signature helpers *)

Section Keys.

Variable E : Externals.
Variable kp : KeyPair.

(** X16. [makeGatewayKeypair] draws a random key pair when the seed is absent
    or the empty string.  For any other seed text it returns a key pair only
    if the text decodes to exactly 32 bytes, and then the pair made from
    those bytes; text that decodes to another length throws the
    configuration error, and an exception of the decoder is passed on. *)
Theorem gateway_keypair_cases (s : string) :
  makeGatewayKeypair E None = Ok (nacl_sign_keyPair E)
  ∧ makeGatewayKeypair E (Some "") = Ok (nacl_sign_keyPair E)
  ∧ (s ≠ "" →
     (∀ pair, makeGatewayKeypair E (Some s) = Ok pair ↔
        ∃ seed, fromB64 E (Some s) = Ok seed ∧ length seed = 32%nat
                ∧ pair = nacl_sign_keyPair_fromSeed E seed)
     ∧ (∀ seed, fromB64 E (Some s) = Ok seed → length seed ≠ 32%nat →
          makeGatewayKeypair E (Some s)
          = Throw (Error "GATEWAY_SEED_BASE64 must be 32 bytes (base64)"))
     ∧ (∀ e, fromB64 E (Some s) = Throw e → makeGatewayKeypair E (Some s) = Throw e)).
Proof.
  split; [reflexivity|]. split; [reflexivity|].
  intros Hs. apply String.eqb_neq in Hs. unfold makeGatewayKeypair. rewrite Hs.
  destruct (fromB64 E (Some s)) as [seed|e].
  - destruct (Z.eqb_spec (Z.of_nat (length seed)) 32) as [Hlen|Hlen]; cbn [negb].
    + split; [|split].
      * intros pair. split.
        -- intros [= <-]. exists seed. repeat split. lia.
        -- intros (seed' & [= <-] & _ & ->). reflexivity.
      * intros seed' [= <-] Hne. lia.
      * intros e. discriminate.
    + split; [|split].
      * intros pair. split; [discriminate|].
        intros (seed' & [= <-] & Hl & _). lia.
      * intros seed' _ _. reflexivity.
      * intros e. discriminate.
  - split; [|split].
    + intros pair. split; [discriminate|]. intros (seed' & H & _). discriminate.
    + intros seed'. discriminate.
    + intros e' [= <-]. reflexivity.
Qed.

(** X17. What [signGateway] returns for a message, [verifyGateway] accepts
    for that message under the gateway's public key, given that base64 text
    decodes to the bytes it encodes and that the gateway's signatures
    verify.  Unlike the wallet verifiers, [verifyGateway] catches nothing:
    an exception of the decoder or of tweetnacl is thrown on. *)
Theorem gateway_sign_then_verify (msgStr : string) (w w' : World) :
  base64_round_trip E → gateway_signature_verifies E kp →
  (∃ sgB64, (signGateway E msgStr (secretKey kp) w).1 = Ok sgB64
            ∧ (verifyGateway E msgStr (Some sgB64) (publicKey kp) w').1 = Ok true)
  ∧ (∀ sigB64 pk e, fromB64 E sigB64 = Throw e →
       (verifyGateway E msgStr sigB64 pk w').1 = Throw e)
  ∧ (∀ sigB64 pk sg e, fromB64 E sigB64 = Ok sg →
       nacl_sign_detached_verify E (enc msgStr) sg pk = Throw e →
       (verifyGateway E msgStr sigB64 pk w').1 = Throw e).
Proof.
  intros Hb64 Hsig. split; [|split].
  - eexists. split; [reflexivity|].
    unfold verifyGateway, bind, lift, extern, toB64, fromB64.
    by rewrite Hb64, Hsig.
  - intros sigB64 pk e He. unfold verifyGateway, bind, lift. by rewrite He.
  - intros sigB64 pk sg e Hs Hv. unfold verifyGateway, bind, lift, extern.
    by rewrite Hs, Hv.
Qed.

End Keys.

(** ** What a settlement leaves *)

Section AfterSettle.

Variable E : Externals.
Variable kp : KeyPair.

(** X18. A wallet proof whose kind is neither solana nor evm, or is missing,
    is never verified: a fresh request whose nonce is unseen is answered 401
    bad-wallet-proof without a single signature-library call, and leaves the
    ledger and the archive as they were. *)
Theorem unknown_kind_rejected (inv : Invoice) (p : WalletProof) (w : World) :
  fresh_at E (inv_ts inv) (inv_ttl inv) w = true →
  seen_at E (inv_nonce inv) (tick w) = false →
  kind p ≠ Some "solana" → kind p ≠ Some "evm" →
  (api_settle E kp (settle_request inv p) w).1
  = Ok (status_json 401 (BError "bad-wallet-proof"))
  ∧ calls (api_settle E kp (settle_request inv p) w).2 = calls w
  ∧ state_kept w (api_settle E kp (settle_request inv p) w).2.
Proof.
  intros Hfresh Hseen Hsol Hevm.
  assert (Hv : ∀ v, verifyWalletProof E (messageFromInvoice inv) p v = (Ok false, v)).
  { intros v. unfold verifyWalletProof. destruct (kind p) as [k|]; [|reflexivity].
    destruct (String.eqb_spec k "solana") as [->|_]; [done|].
    destruct (String.eqb_spec k "evm") as [->|_]; [done|]. reflexivity. }
  assert (Hverdict : verdict (verifyWalletProof E (messageFromInvoice inv) p) = false).
  { unfold verdict. by rewrite Hv. }
  assert (Hcalls : calls_of (verifyWalletProof E (messageFromInvoice inv) p) = []).
  { unfold calls_of. by rewrite Hv. }
  rewrite api_settle_run, Hfresh, Hseen. cbn [negb]. cbn zeta.
  rewrite Hverdict, Hcalls. cbn [negb fst snd]. rewrite append_calls_nil.
  destruct (seenNonce_world E (inv_nonce inv) (tick w)) as [-> | ->];
    repeat split; simpl; lia.
Qed.

Lemma removelast_head {A} (x : A) (l : list A) :
  l ≠ [] → head (removelast (x :: l)) = Some x.
Proof. by destruct l. Qed.

Lemma elem_of_removelast {A} (x : A) (l : list A) : x ∈ removelast l → x ∈ l.
Proof.
  induction l as [|y l IH]; [done|]. destruct l as [|z l].
  - cbn. intros H. by apply elem_of_nil in H.
  - change (removelast (y :: z :: l)) with (y :: removelast (z :: l)).
    rewrite !elem_of_cons. intros [->|H]; [by left|]. right.
    apply elem_of_cons. by apply IH.
Qed.

(** What a receipt answer of [/api/settle] leaves in the archive. *)
Lemma api_settle_archive rq w r :
  (api_settle E kp rq w).1 = Ok (json (BReceipt r)) →
  backed_by_proof E kp r
  ∧ receipts (api_settle E kp rq w).2
    = if 500 <? Z.of_nat (length (r :: receipts w))
      then removelast (r :: receipts w) else r :: receipts w.
Proof.
  destruct (rq ≫= invoice) as [inv|] eqn:Hi;
    [destruct (rq ≫= walletProof) as [p|] eqn:Hp|];
    [|rewrite api_settle_missing by (by right); discriminate
     |rewrite api_settle_missing by (by left); discriminate].
  rewrite (settle_request_eta _ _ _ Hi Hp), api_settle_run. cbn zeta.
  destruct (fresh_at E (inv_ts inv) (inv_ttl inv) w); cbn [negb]; [|discriminate].
  destruct (seen_at E (inv_nonce inv) (tick w)); [discriminate|].
  destruct (verdict (verifyWalletProof E (messageFromInvoice inv) p)) eqn:Hv;
    cbn [negb]; [|discriminate].
  intros [= <-]. split; [by exists inv, p|].
  cbn [snd]. rewrite rememberReceipt_receipts.
  destruct (seenNonce_frame E (inv_nonce inv) (tick w)) as (_ & Hr & _).
  cbn [receipts log cleanupNonces markNonce modify bind floor_now set_usedNonces tick
       snd fst append_calls] in *.
  by rewrite Hr.
Qed.

(** X19. When [/api/settle] answers with a receipt, that receipt is first in
    the archive, so [/api/receipts] lists it first; no entry left in the
    ledger has an expiry below the second that the request's last clock
    reading showed; and the ledger holds the receipt's nonce with expiry
    ts + ttl unless that expiry is itself below that second. *)
Theorem settlement_recorded (rq : option SettleBody) (w : World) (r : Receipt) :
  (api_settle E kp rq w).1 = Ok (json (BReceipt r)) →
  let w' := (api_settle E kp rq w).2 in
  let now := Date_now E (pred (clock_reads w')) / 1000 in
  head (receipts w') = Some r
  ∧ (∃ rest, (api_receipts w').1 = Ok (json (BItems (r :: rest))))
  ∧ (∀ k e, usedNonces w' !! k = Some e → now ≤ e)
  ∧ (now ≤ ts r + ttl r → usedNonces w' !! nonce r = Some (ts r + ttl r)).
Proof.
  intros Hresp w' now.
  destruct (api_settle_archive rq w r Hresp) as [_ Harch].
  assert (Hhead : head (receipts w') = Some r).
  { unfold w'. rewrite Harch.
    destruct (500 <? Z.of_nat (length (r :: receipts w))) eqn:Hfull; [|reflexivity].
    apply removelast_head. intros Hnil. rewrite Hnil in Hfull. discriminate. }
  destruct (api_settle_receipt_is E kp rq w r Hresp) as (inv & p & Hrq & Hr).
  subst rq. destruct (api_settle_receipt E kp inv p w r Hresp) as (_ & _ & Hm & Hreads).
  assert (Hnow : now = now_at E (verified_in E inv p w)).
  { unfold now, w'. by rewrite Hreads. }
  split; [exact Hhead|]. split; [|split].
  - unfold api_receipts, bind, gets, ret. cbn [fst].
    destruct (receipts w') as [|x rest]; [discriminate|].
    injection Hhead as ->. by exists rest.
  - intros k e. unfold w'. rewrite Hm, Hnow, evicted_lookup. tauto.
  - intros Hle. unfold w'. rewrite Hm, Hr. apply evicted_lookup.
    change (nonce (signed_receipt E kp inv p)) with (inv_nonce inv).
    rewrite lookup_insert_eq. split; [reflexivity|].
    rewrite Hr, Hnow in Hle. exact Hle.
Qed.

(** X20. Replay protection ends with the recorded expiry: a fresh invoice
    whose nonce has a ledger entry that is 0, or below the second
    [seenNonce] reads, is settled like one whose nonce was never seen, if
    its wallet proof verifies. *)
Theorem expired_entry_settles_again (inv : Invoice) (p : WalletProof) (w : World) (T : Z) :
  fresh_at E (inv_ts inv) (inv_ttl inv) w = true →
  usedNonces w !! inv_nonce inv = Some T →
  T = 0 ∨ T < now_at E (tick w) →
  verdict (verifyWalletProof E (messageFromInvoice inv) p) = true →
  (api_settle E kp (settle_request inv p) w).1
  = Ok (json (BReceipt (signed_receipt E kp inv p))).
Proof.
  intros Hfresh Hentry Hexp Hvalid.
  assert (Hseen : seen_at E (inv_nonce inv) (tick w) = false).
  { unfold seen_at. rewrite seenNonce_run.
    change (usedNonces (tick w)) with (usedNonces w). rewrite Hentry.
    destruct (Z.eqb_spec T 0) as [_|Hne]; [reflexivity|].
    destruct Hexp as [?|Hlt]; [done|]. cbn [fst]. by apply geb_false_lt. }
  rewrite api_settle_run, Hfresh, Hseen. cbn [negb]. cbn zeta. by rewrite Hvalid.
Qed.

Lemma archive_invariant_handle rq w :
  (length (receipts w) ≤ 500)%nat ∧ (∀ r, r ∈ receipts w → backed_by_proof E kp r) →
  (length (receipts (handle E kp rq w).2) ≤ 500)%nat
  ∧ (∀ r, r ∈ receipts (handle E kp rq w).2 → backed_by_proof E kp r).
Proof.
  intros [Hlen Hall].
  destruct (handle_receipt_or_same_archive E kp rq w) as [(b & r & -> & Hresp)| ->];
    [|by split].
  cbn [handle] in *. destruct (api_settle_archive b w r Hresp) as [Hr ->].
  destruct (Z.ltb_spec 500 (Z.of_nat (length (r :: receipts w)))) as [Hgt|Hle].
  - split; [by rewrite removelast_cons_length|].
    intros x Hx. apply elem_of_removelast, elem_of_cons in Hx as [->|Hx]; auto.
  - split; [simpl in *; lia|].
    intros x Hx. apply elem_of_cons in Hx as [->|Hx]; auto.
Qed.

(** X21. Whatever requests the gateway has served since start-up, the archive
    that [/api/receipts] lists holds at most 500 receipts, and every one of
    them is a receipt that [/api/settle] signed for an invoice and a wallet
    proof that verified over that invoice's canonical message. *)
Theorem archive_holds_settled_receipts (rqs : list Request) :
  let w := serve E kp rqs initial in
  (api_receipts w).1 = Ok (json (BItems (receipts w)))
  ∧ (length (receipts w) ≤ 500)%nat
  ∧ (∀ r, r ∈ receipts w → backed_by_proof E kp r).
Proof.
  intros w. split; [reflexivity|].
  assert (Hgen : ∀ rqs v,
    (length (receipts v) ≤ 500)%nat ∧ (∀ r, r ∈ receipts v → backed_by_proof E kp r) →
    (length (receipts (serve E kp rqs v)) ≤ 500)%nat
    ∧ (∀ r, r ∈ receipts (serve E kp rqs v) → backed_by_proof E kp r)).
  { clear. induction rqs as [|rq rqs IH]; intros v Hv; [exact Hv|].
    cbn [serve]. by apply IH, archive_invariant_handle. }
  apply Hgen. split; [cbn; lia|]. intros r Hr. by apply elem_of_nil in Hr.
Qed.

End AfterSettle.

(** ** Allowed origins *)

Section Origins.

Variable trim : string → string.

Lemma split_cons (s : string) : ∃ piece pieces, split ","%char s = piece :: pieces.
Proof.
  destruct s as [|c s]; cbn [split]; [by eexists _, _|].
  destruct (Ascii.eqb c ","%char); [by eexists _, _|].
  destruct (split "," s); by eexists _, _.
Qed.

Lemma split_join (s : string) : join "," (split ","%char s) = s.
Proof.
  induction s as [|c s IH]; [reflexivity|]. cbn [split].
  destruct (split_cons s) as (piece & pieces & Hs). rewrite Hs in *.
  destruct (Ascii.eqb_spec c ","%char) as [->|Hne].
  - change (join "," ("" :: piece :: pieces)) with ("" +:+ "," +:+ join "," (piece :: pieces)).
    by rewrite IH.
  - destruct pieces as [|q qs]; cbn [join] in *; by rewrite <- IH.
Qed.

Lemma split_no_separator (s piece : string) :
  piece ∈ split ","%char s → ","%char ∉ list_ascii_of_string piece.
Proof.
  revert piece. induction s as [|c s IH]; intros piece; cbn [split].
  - intros ->%list_elem_of_singleton. cbn. apply not_elem_of_nil.
  - destruct (split_cons s) as (q & qs & Hs). rewrite Hs in *.
    destruct (Ascii.eqb_spec c ","%char) as [->|Hne].
    + intros [->|H]%elem_of_cons; [cbn; apply not_elem_of_nil|by apply IH].
    + intros [->|H]%elem_of_cons.
      * cbn. intros [?|H]%elem_of_cons; [done|].
        revert H. apply IH. by left.
      * apply IH. by right.
Qed.

(** X22. The origin check lets a request through when it carries no origin
    or an empty one, and otherwise exactly when its origin equals, character
    for character, the trimmed form of one of the comma-separated pieces of
    ORIGIN; any other origin gets the error "Not allowed by CORS".  The
    pieces hold no comma and, joined by commas, give ORIGIN back; with ORIGIN
    unset or empty the one piece is https://quantum402.dev. *)
Theorem origin_allowed_iff (ORIGIN : option string) (origin configured : string) :
  cors_origin trim ORIGIN None = Ok true
  ∧ cors_origin trim ORIGIN (Some "") = Ok true
  ∧ allowed trim None = [trim "https://quantum402.dev"]
  ∧ allowed trim (Some "") = [trim "https://quantum402.dev"]
  ∧ (configured ≠ "" →
     join "," (split ","%char configured) = configured
     ∧ (∀ piece, piece ∈ split ","%char configured →
                 ","%char ∉ list_ascii_of_string piece)
     ∧ allowed trim (Some configured) = map trim (split ","%char configured))
  ∧ (origin ≠ "" →
     (cors_origin trim ORIGIN (Some origin) = Ok true
      ↔ origin ∈ allowed trim ORIGIN)
     ∧ (origin ∉ allowed trim ORIGIN →
        cors_origin trim ORIGIN (Some origin) = Throw (Error "Not allowed by CORS"))).
Proof.
  split; [reflexivity|]. split; [reflexivity|]. split; [reflexivity|].
  split; [reflexivity|]. split.
  - intros Hc. split; [apply split_join|]. split; [apply split_no_separator|].
    unfold allowed. apply String.eqb_neq in Hc. by rewrite Hc.
  - intros Ho. apply String.eqb_neq in Ho. unfold cors_origin. rewrite Ho.
    destruct (bool_decide_reflect (origin ∈ allowed trim ORIGIN)) as [Hin|Hout].
    + split; [done|]. intros Hnot. by destruct Hnot.
    + split; [|done]. split; [discriminate|done].
Qed.

End Origins.

(** * Further concrete runs *)

Section MoreRuns.

Import Sample Scenario.

Lemma jump_monotone : clock_monotone (env jump).
Proof.
  intros i j Hij. cbn. unfold jump.
  destruct (Nat.ltb_spec i 2), (Nat.ltb_spec j 2); lia.
Qed.

Lemma archive_latest_run :
  receipts (remember_all [receipt0] archive500)
  = take 500 (rev [receipt0] ++ receipts archive500).
Proof. apply archive_is_latest_500. vm_compute. apply le_n. Defined.

Lemma expired_stays_expired_run :
  (api_settle (env jump) kp (settle_request invoice0 proof0)
     (serve (env jump) kp [GetHealth; GetReceipts]
        (api_settle (env jump) kp (settle_request invoice0 bogus) (settled jump)).2)).1
  = Ok (status_json 400 (BError "expired")).
Proof.
  apply (expired_stays_expired (env jump) kp invoice0 bogus proof0 (settled jump)
           [GetHealth; GetReceipts] jump_monotone).
  vm_compute. reflexivity.
Defined.

Lemma negative_ttl_run :
  (api_settle (env steady) kp (settle_request issued_short_lived proof0)
     (serve (env steady) kp [GetGateway]
        (api_invoice (env steady) kp short_lived initial).2)).1
  = Ok (status_json 400 (BError "expired")).
Proof.
  apply (negative_ttl_never_settles (env steady) kp short_lived initial
           issued_short_lived (messageFromInvoice issued_short_lived)
           (gatewayPubB64 (env steady) kp) [GetGateway] proof0 steady_monotone).
  - vm_compute. reflexivity.
  - vm_compute. reflexivity.
Defined.

Lemma replay_protected_run :
  (api_verify (env steady) (verify_request receipt0)
     (serve (env steady) kp [GetHealth] (settled steady))).1
  = Ok (json (BVerified true)).
Proof.
  pose proof (settled_receipt_replay_protected (env steady) kp settle0 initial receipt0
                [GetHealth] steady_monotone steady_after_epoch
                (env_base64 _) (env_signature _)) as H.
  cbv zeta in H. apply H.
  - vm_compute. reflexivity.
  - vm_compute. discriminate.
Defined.

Lemma translate_run :
  (api_translate (env_json steady) (Some header0) (settled steady)).1
  = Ok (json (BData "Hello â†’ Halo")).
Proof.
  apply (translate_honours_receipt (env_json steady) kp settle0 initial (settled steady)
           receipt0 header0 (env_base64 steady) (env_signature steady)).
  - vm_compute. reflexivity.
  - discriminate.
  - reflexivity.
  - vm_compute. reflexivity.
  - reflexivity.
Defined.

Lemma sign_then_verify_run :
  ∃ sgB64, (signGateway (env steady) "hello" (secretKey kp) initial).1 = Ok sgB64
           ∧ (verifyGateway (env steady) "hello" (Some sgB64) (publicKey kp) initial).1
             = Ok true.
Proof.
  apply (gateway_sign_then_verify (env steady) kp "hello" initial initial
           (env_base64 _) (env_signature _)).
Defined.

Lemma unknown_kind_run :
  (api_settle (env steady) kp (settle_request invoice0 bitcoin_proof) initial).1
  = Ok (status_json 401 (BError "bad-wallet-proof")).
Proof.
  apply (unknown_kind_rejected (env steady) kp invoice0 bitcoin_proof initial).
  - vm_compute. reflexivity.
  - vm_compute. reflexivity.
  - discriminate.
  - discriminate.
Defined.

Lemma settlement_recorded_run :
  head (receipts (settled steady)) = Some receipt0.
Proof.
  pose proof (settlement_recorded (env steady) kp settle0 initial receipt0) as H.
  cbv zeta in H. apply H. vm_compute. reflexivity.
Defined.

Lemma expired_entry_run :
  (api_settle (env steady) kp (settle_request invoice_old proof_old) ledger0).1
  = Ok (json (BReceipt (signed_receipt (env steady) kp invoice_old proof_old))).
Proof.
  apply (expired_entry_settles_again (env steady) kp invoice_old proof_old ledger0
           1600000000).
  - vm_compute. reflexivity.
  - reflexivity.
  - right. vm_compute. reflexivity.
  - vm_compute. reflexivity.
Defined.

End MoreRuns.
